(** * g2g: publishing expvars to a Graphite server

    A shallow embedding of [g2g.go] and the properties of its
    specification.  The Go program keeps one [Graphite] structure that is
    owned by a single goroutine (the event loop); clients talk to that
    goroutine over two unbuffered channels.

    The embedding has three layers:
    - the outside world (clock, network, expvars, the runtime's choices),
      given by an oracle [Env] and recorded in a trace of events;
    - the methods of [Graphite], written in a state monad over the
      structure and the world, with Go's [error] results as values;
    - the goroutines (the event loop and the callers of [Register] and
      [Shutdown]) as a transition system with rendezvous on the channels. *)

From Stdlib Require Import ZArith String Ascii DecimalString DecimalPos DecimalZ.
From stdpp Require Import gmap strings list fin_maps.

Open Scope Z_scope.

(** ** Data *)

(** Instants and durations are counted in nanoseconds.  A [time.Duration]
    is an [int64]: it lies between [minDuration] and [maxDuration]. *)
Definition Time := Z.
Definition Duration := Z.

Definition minDuration : Duration := - 2 ^ 63.
Definition maxDuration : Duration := 2 ^ 63 - 1.

Definition is_Duration (d : Z) : Prop := minDuration <= d <= maxDuration.

(** [Time.Add] is the sum. *)
Definition time_Add (t : Time) (d : Duration) : Time := t + d.
(** [Time.Sub]: the difference, or the largest or smallest [Duration] when
    the difference does not fit. *)
Definition time_Sub (t u : Time) : Duration :=
  if t - u <? minDuration then minDuration
  else if maxDuration <? t - u then maxDuration
  else t - u.
(** [Time.Unix]: whole seconds since the epoch, rounded down. *)
Definition time_Unix (t : Time) : Z := t / 1000000000.

(** A [net.Conn] is known by its identity only. *)
Definition Conn := nat.
(** An [expvar.Var] is an interface value: nil, or a reference to a value
    owned by the application; what its [String] method returns is up to the
    application at the time of the call. *)
Inductive Var : Type :=
| nilVar
| expVar (id : nat).

Global Instance Var_eq_dec : EqDecision Var.
Proof. solve_decision. Defined.

(** Go's [error] values: the ones handed out by package [net] and the ones
    made by [fmt.Errorf]. *)
Inductive error : Type :=
| OpError (msg : string)
| errorString (msg : string).

Definition Error (e : error) : string :=
  match e with
  | OpError msg => msg
  | errorString msg => msg
  end.

Global Instance error_eq_dec : EqDecision error.
Proof. solve_decision. Defined.

Record namedVar : Type := mkNamedVar {
  name : string;
  v : Var;
}.

Global Instance namedVar_eq_dec : EqDecision namedVar.
Proof. solve_decision. Defined.

Record Graphite : Type := mkGraphite {
  endpoint : string;
  interval : Duration;
  timeout : Duration;
  lastPublish : Time;
  connection : option Conn;
  vars : gmap string Var;
}.

Definition set_connection (c : option Conn) (g : Graphite) : Graphite :=
  mkGraphite (endpoint g) (interval g) (timeout g) (lastPublish g) c (vars g).
Definition set_lastPublish (t : Time) (g : Graphite) : Graphite :=
  mkGraphite (endpoint g) (interval g) (timeout g) t (connection g) (vars g).
Definition set_vars (m : gmap string Var) (g : Graphite) : Graphite :=
  mkGraphite (endpoint g) (interval g) (timeout g) (lastPublish g) (connection g) m.

(** ** Formatting *)

Definition LF : string := String (ascii_of_nat 10) EmptyString.

(** The verb [%d]. *)
Definition fmt_d (z : Z) : string := NilZero.string_of_int (Z.to_int z).

(** [len([]byte(s))]. *)
Definition len (s : string) : Z := Z.of_nat (String.length s).

(** [fmt.Sprintf("%s %s %d\n", name, value, unix)] *)
Definition Sprintf_line (name value : string) (unix : Z) : string :=
  (name ++ " " ++ value ++ " " ++ fmt_d unix ++ LF)%string.

(** [fmt.Errorf("%s = %v: short write: %d/%d", name, value, n, len(b))] *)
Definition Errorf_short_write (name value : string) (n l : Z) : error :=
  errorString (name ++ " = " ++ value ++ ": short write: "
                    ++ fmt_d n ++ "/" ++ fmt_d l)%string.

(** [log.Printf("g2g: %s: %s", name, err)] *)
Definition Sprintf_log (name : string) (err : error) : string :=
  ("g2g: " ++ name ++ ": " ++ Error err)%string.

(** ** The world *)

(** Where the event loop goroutine stands. *)
Inductive LoopState : Type :=
| LNone                      (* never started *)
| LTop                       (* at the top of [for] *)
| LSelect (deadline : Time)  (* waiting in [select]; the timer is due at [deadline] *)
| LAck (q : nat)             (* waiting to send [true] on [q] *)
| LDone                      (* returned *)
| LPanic.                    (* died on a nil dereference *)

Global Instance LoopState_eq_dec : EqDecision LoopState.
Proof. solve_decision. Defined.

(** Everything observable the program does, oldest first.  [EPostOne] is a
    ghost record: it notes that a call of [postOne] made by [postAll] has
    returned, and with what. *)
Inductive Event : Type :=
| EDial (endpoint : string) (r : Conn + error)
| ESetWriteDeadline (c : Conn) (t : Time) (r : option error)
| EWrite (c : Conn) (b : string) (n : Z) (r : option error)
| EClose (c : Conn)
| ELog (line : string)
| EPostOne (name value : string) (r : option error).

(** The oracle: what the outside answers at the [k]-th interaction. *)
Record Env : Type := mkEnv {
  env_elapse : nat -> N;                                 (* time that passes meanwhile *)
  env_dial : nat -> string -> option error;              (* [None]: connected *)
  env_deadline : nat -> Conn -> Time -> option error;
  env_write : nat -> Conn -> string -> Z * option error; (* [n, err] *)
  env_String : nat -> nat -> string;                     (* of the variable [id] *)
  env_order : nat -> list nat;                           (* order of a [range] over a map *)
}.

Record World : Type := mkWorld {
  w_env : Env;
  w_now : Time;
  w_tick : nat;
  w_trace : list Event;
  w_loop : LoopState;
}.

Definition elapse (w : World) : World :=
  mkWorld (w_env w) (w_now w + Z.of_N (env_elapse (w_env w) (w_tick w)))
          (S (w_tick w)) (w_trace w) (w_loop w).
Definition emit (e : Event) (w : World) : World :=
  mkWorld (w_env w) (w_now w) (w_tick w) (w_trace w ++ [e]) (w_loop w).
Definition set_loop (l : LoopState) (w : World) : World :=
  mkWorld (w_env w) (w_now w) (w_tick w) (w_trace w) l.

Definition time_Now (w : World) : Time * World :=
  let w' := elapse w in (w_now w', w').

(** [time.After(d)]: the timer is armed now and due [d] later. *)
Definition time_After (d : Duration) (w : World) : Time * World :=
  let w' := elapse w in (time_Add (w_now w') d, w').

Definition net_Dial (ep : string) (w : World) : (Conn + error) * World :=
  let r := match env_dial (w_env w) (w_tick w) ep with
           | None => inl (w_tick w)
           | Some e => inr e
           end in
  (r, emit (EDial ep r) (elapse w)).

Definition Conn_SetWriteDeadline (c : Conn) (t : Time) (w : World)
  : option error * World :=
  let r := env_deadline (w_env w) (w_tick w) c t in
  (r, emit (ESetWriteDeadline c t r) (elapse w)).

Definition Conn_Write (c : Conn) (b : string) (w : World)
  : (Z * option error) * World :=
  let r := env_write (w_env w) (w_tick w) c b in
  (r, emit (EWrite c b r.1 r.2) (elapse w)).

Definition Conn_Close (c : Conn) (w : World) : unit * World :=
  (tt, emit (EClose c) (elapse w)).

Definition expvar_String (id : nat) (w : World) : string * World :=
  (env_String (w_env w) (w_tick w) id, elapse w).

Definition log_Print (line : string) (w : World) : unit * World :=
  (tt, emit (ELog line) w).

Definition ghost (e : Event) (w : World) : unit * World := (tt, emit e w).

(** ** The monad of the methods *)

Record St : Type := mkSt { st_g : Graphite; st_w : World }.

Inductive Result (A : Type) : Type :=
| Ok (a : A) (s : St)
| Panic (s : St).
Arguments Ok {A} a s.
Arguments Panic {A} s.

Definition M (A : Type) : Type := St -> Result A.

Definition ret {A} (a : A) : M A := fun s => Ok a s.
Definition bind {A B} (m : M A) (k : A -> M B) : M B :=
  fun s => match m s with
           | Ok a s' => k a s'
           | Panic s' => Panic s'
           end.

Notation "x <- m ;; k" := (bind m (fun x => k))
  (at level 100, m at next level, right associativity).
Notation "m ;;; k" := (bind m (fun _ => k))
  (at level 100, right associativity).

(** Read a field of [g]. *)
Definition field {A} (f : Graphite -> A) : M A := fun s => Ok (f (st_g s)) s.
(** Assign to a field of [g]. *)
Definition assign (f : Graphite -> Graphite) : M unit :=
  fun s => Ok tt (mkSt (f (st_g s)) (st_w s)).
(** An interaction with the world. *)
Definition io {A} (f : World -> A * World) : M A :=
  fun s => let '(a, w) := f (st_w s) in Ok a (mkSt (st_g s) w).
(** [g.connection.] as the receiver of a method call. *)
Definition deref_connection : M Conn :=
  fun s => match connection (st_g s) with
           | Some c => Ok c s
           | None => Panic s
           end.

(** [v.String()]: a method call on an interface value, which panics when
    the value is nil. *)
Definition Var_String (v : Var) : M string :=
  match v with
  | nilVar => fun s => Panic s
  | expVar id => io (expvar_String id)
  end.

(** The state a computation ends in, whichever way it ends. *)
Definition state_of {A} (r : Result A) : St :=
  match r with
  | Ok _ s => s
  | Panic s => s
  end.

(** ** The methods of [Graphite] *)

Definition reconnect : M (option error) :=
  ep <- field endpoint ;;
  r <- io (net_Dial ep) ;;
  match r with
  | inr err => ret (Some err)
  | inl conn => assign (set_connection (Some conn)) ;;; ret None
  end.

Definition postOne (name value : string) : M (option error) :=
  c0 <- field connection ;;
  err <- match c0 with
         | None => reconnect
         | Some _ => ret None
         end ;;
  match err with
  | Some e => ret (Some e)
  | None =>
      now <- io time_Now ;;
      tmo <- field timeout ;;
      let deadline := time_Add now tmo in
      c <- deref_connection ;;
      err <- io (Conn_SetWriteDeadline c deadline) ;;
      match err with
      | Some e => ret (Some e)
      | None =>
          now <- io time_Now ;;
          let b := Sprintf_line name value (time_Unix now) in
          c <- deref_connection ;;
          r <- io (Conn_Write c b) ;;
          match r.2 with
          | Some e => ret (Some e)
          | None =>
              if decide (r.1 = len b) then ret None
              else ret (Some (Errorf_short_write name value r.1 (len b)))
          end
      end
  end.

Definition nextPublishDelay : M Duration :=
  lp <- field lastPublish ;;
  iv <- field interval ;;
  let absoluteNext := time_Add lp iv in
  now <- io time_Now ;;
  let deltaNext := time_Sub absoluteNext now in
  ret deltaNext.

(** *** The order of [range] over a map

    Go leaves the iteration order of a map open.  The entries are taken
    from the map and rearranged as the runtime says: each entry is put back
    at the position the oracle names, so the result is always a rearrangement
    of the entries, and every rearrangement can come out. *)

Fixpoint insert_at {A} (k : nat) (x : A) (l : list A) : list A :=
  match k, l with
  | O, _ => x :: l
  | S _, [] => [x]
  | S k', y :: l' => y :: insert_at k' x l'
  end.

Fixpoint shuffle {A} (ks : list nat) (l : list A) : list A :=
  match l with
  | [] => []
  | x :: l' => insert_at (hd O ks) x (shuffle (tl ks) l')
  end.

Definition range_order (w : World) : list nat * World :=
  (env_order (w_env w) (w_tick w), elapse w).

Definition range_vars : M (list (string * Var)) :=
  m <- field vars ;;
  ks <- io range_order ;;
  ret (shuffle ks (map_to_list m)).

(** The body of the [for ... range] of [postAll], over the entries still to
    visit. *)
Fixpoint postAll_range (kvs : list (string * Var)) : M unit :=
  match kvs with
  | [] => ret tt
  | (name, v) :: rest =>
      value <- Var_String v ;;
      err <- postOne name value ;;
      io (ghost (EPostOne name value err)) ;;;
      match err with
      | Some e => io (log_Print (Sprintf_log name e))
      | None => ret tt
      end ;;;
      postAll_range rest
  end.

Definition postAll : M unit :=
  kvs <- range_vars ;;
  postAll_range kvs ;;;
  now <- io time_Now ;;
  assign (set_lastPublish now).

(** *** The event loop *)

(** The case of the [select] that is taken. *)
Inductive Case : Type :=
| CaseRegistration (nv : namedVar)   (* [nv := <-g.registrations] *)
| CaseTimer                          (* [<-time.After(...)] *)
| CaseShutdown (q : nat).            (* [q := <-g.shutdown] *)

(** Entering [select]: its operands are evaluated, which arms the timer. *)
Definition select_arm : M LoopState :=
  d <- nextPublishDelay ;;
  deadline <- io (time_After d) ;;
  ret (LSelect deadline).

(** The statements of the case taken, up to the next point where the loop
    waits. *)
Definition loop_case (c : Case) : M LoopState :=
  match c with
  | CaseRegistration nv =>
      m <- field vars ;;
      assign (set_vars (<[name nv := v nv]> m)) ;;;
      ret LTop
  | CaseTimer =>
      postAll ;;;
      ret LTop
  | CaseShutdown q =>
      c <- deref_connection ;;
      io (Conn_Close c) ;;;
      assign (set_connection None) ;;;
      ret (LAck q)
  end.

(** *** Construction *)

(** [go g.loop()] *)
Definition go_loop (w : World) : unit * World := (tt, set_loop LTop w).

Definition NewGraphite (endpoint : string) (interval timeout : Duration)
    (w : World) : Result (option Graphite * option error) :=
  let '(now, w1) := time_Now w in
  let g := mkGraphite endpoint interval timeout now None ∅ in
  (err <- reconnect ;;
   match err with
   | Some e => ret (None, Some e)
   | None =>
       io go_loop ;;;
       g <- field id ;;
       ret (Some g, None)
   end) (mkSt g w1).

(** ** The goroutines *)

(** A client goroutine inside a call of [Register] or [Shutdown].  Both
    channels of [Graphite] and the channel [q] of [Shutdown] are made
    without a buffer, so a send and its receive happen together.  The
    channel [q] of a call is known by the index of its caller. *)
Inductive Caller : Type :=
| Register_send (nv : namedVar)   (* at [g.registrations <- namedVar{name, v}] *)
| Register_ret                    (* [Register] has returned *)
| Shutdown_send                   (* at [g.shutdown <- q] *)
| Shutdown_recv                   (* at [<-q] *)
| Shutdown_ret.                   (* [Shutdown] has returned *)

Global Instance Caller_eq_dec : EqDecision Caller.
Proof. solve_decision. Defined.

(** [Register] is the one send; this is where its caller stands on
    entry. *)
Definition Register (name : string) (v : Var) : Caller :=
  Register_send (mkNamedVar name v).

(** [Shutdown] makes [q], sends it, and receives from it; this is where its
    caller stands once [q] is made. *)
Definition Shutdown : Caller := Shutdown_send.

Record Sys : Type := mkSys {
  sys_st : St;
  sys_callers : list Caller;
}.

Definition sys_g (s : Sys) : Graphite := st_g (sys_st s).
Definition sys_w (s : Sys) : World := st_w (sys_st s).

Inductive Action : Type :=
| ACall_Register (name : string) (v : Var)   (* a client calls [g.Register] *)
| ACall_Shutdown                  (* a client calls [g.Shutdown] *)
| AElapse (dt : N)                (* time passes *)
| AArm                            (* the loop enters [select] *)
| ARecvRegistration (i : nat)     (* the loop receives from caller [i] *)
| ATimer                          (* the loop receives from the timer *)
| ARecvShutdown (i : nat)         (* the loop receives [q] from caller [i] *)
| AAck (i : nat).                 (* caller [i] receives [true] on its [q] *)

Definition advance (dt : N) (w : World) : World :=
  mkWorld (w_env w) (w_now w + Z.of_N dt) (w_tick w) (w_trace w) (w_loop w).

(** The loop goroutine runs [m] and then stands where [m] says. *)
Definition run_loop (m : M LoopState) (st : St) : St :=
  match m st with
  | Ok l st' => mkSt (st_g st') (set_loop l (st_w st'))
  | Panic st' => mkSt (st_g st') (set_loop LPanic (st_w st'))
  end.

Definition step (a : Action) (s : Sys) : option Sys :=
  let st := sys_st s in
  let cs := sys_callers s in
  match a with
  | ACall_Register name v => Some (mkSys st (cs ++ [Register name v]))
  | ACall_Shutdown => Some (mkSys st (cs ++ [Shutdown]))
  | AElapse dt => Some (mkSys (mkSt (st_g st) (advance dt (st_w st))) cs)
  | AArm =>
      match w_loop (st_w st) with
      | LTop => Some (mkSys (run_loop select_arm st) cs)
      | _ => None
      end
  | ARecvRegistration i =>
      match w_loop (st_w st), cs !! i with
      | LSelect _, Some (Register_send nv) =>
          Some (mkSys (run_loop (loop_case (CaseRegistration nv)) st)
                      (<[i := Register_ret]> cs))
      | _, _ => None
      end
  | ATimer =>
      match w_loop (st_w st) with
      | LSelect deadline =>
          if decide (deadline <= w_now (st_w st))
          then Some (mkSys (run_loop (loop_case CaseTimer) st) cs)
          else None
      | _ => None
      end
  | ARecvShutdown i =>
      match w_loop (st_w st), cs !! i with
      | LSelect _, Some Shutdown_send =>
          Some (mkSys (run_loop (loop_case (CaseShutdown i)) st)
                      (<[i := Shutdown_recv]> cs))
      | _, _ => None
      end
  | AAck i =>
      match w_loop (st_w st), cs !! i with
      | LAck q, Some Shutdown_recv =>
          if decide (q = i)
          then Some (mkSys (mkSt (st_g st) (set_loop LDone (st_w st)))
                           (<[i := Shutdown_ret]> cs))
          else None
      | _, _ => None
      end
  end.

(** A schedule, action by action; [None] when an action is not enabled. *)
Fixpoint run (acts : list Action) (s : Sys) : option Sys :=
  match acts with
  | [] => Some s
  | a :: acts' =>
      match step a s with
      | Some s' => run acts' s'
      | None => None
      end
  end.

(** The registration the loop receives in a step, if the step is one. *)
Definition received_by (a : Action) (s : Sys) : option namedVar :=
  match a with
  | ARecvRegistration i =>
      match sys_callers s !! i with
      | Some (Register_send nv) => Some nv
      | _ => None
      end
  | _ => None
  end.

(** The registrations the loop receives along a schedule, oldest first. *)
Fixpoint received (acts : list Action) (s : Sys) : list namedVar :=
  match acts with
  | [] => []
  | a :: acts' =>
      match step a s with
      | Some s' => option_list (received_by a s) ++ received acts' s'
      | None => []
      end
  end.

(** The systems that a successful [NewGraphite], called with durations, and
    the steps lead to. *)
Inductive reachable : Sys -> Prop :=
| reach_new ep iv tmo w g st :
    is_Duration iv -> is_Duration tmo ->
    NewGraphite ep iv tmo w = Ok (Some g, None) st ->
    reachable (mkSys st [])
| reach_step s a s' :
    reachable s -> step a s = Some s' -> reachable s'.

(** ** A sample world *)

Module Sample.

(** Every dial connects, every write is complete, each interaction takes
    one second, and variable [x] reads as [x] in decimal. *)
Definition env_ok : Env :=
  mkEnv (fun _ => 1000000000%N) (fun _ _ => None) (fun _ _ _ => None)
        (fun _ _ b => (len b, None))
        (fun _ x => fmt_d (Z.of_nat x)) (fun _ => []).

(** No dial connects. *)
Definition env_down : Env :=
  mkEnv (fun _ => 0%N) (fun _ _ => Some (OpError "connection refused"))
        (fun _ _ _ => None) (fun _ _ b => (len b, None))
        (fun _ x => fmt_d (Z.of_nat x)) (fun _ => []).

(** Connected, but the peer takes three bytes of every write. *)
Definition env_short : Env :=
  mkEnv (fun _ => 1000000000%N) (fun _ _ => None) (fun _ _ _ => None)
        (fun _ _ _ => (3, None))
        (fun _ x => fmt_d (Z.of_nat x)) (fun _ => []).

(** Connected, but every write fails. *)
Definition env_broken : Env :=
  mkEnv (fun _ => 1000000000%N) (fun _ _ => None) (fun _ _ _ => None)
        (fun _ _ _ => (0, Some (OpError "broken pipe")))
        (fun _ x => fmt_d (Z.of_nat x)) (fun _ => []).

Definition world (e : Env) : World := mkWorld e 1700000000000000000 O [] LNone.

Definition graphite (c : option Conn) : Graphite :=
  mkGraphite "stats:2003" 10000000000 1000000000 1700000000000000000 c
             (<["load" := expVar 1]> (<["hits" := expVar 2]> ∅)).

Definition st (e : Env) (c : option Conn) : St := mkSt (graphite c) (world e).

(** The same with a nil variable registered under [load]. *)
Definition graphite_nil (c : option Conn) : Graphite :=
  mkGraphite "stats:2003" 10000000000 1000000000 1700000000000000000 c
             (<["load" := nilVar]> (<["hits" := expVar 2]> ∅)).

Definition st_nil (e : Env) (c : option Conn) : St :=
  mkSt (graphite_nil c) (world e).

(** An interval at the lower bound of [Duration]. *)
Definition st_min (e : Env) : St :=
  mkSt (mkGraphite "stats:2003" minDuration 1000000000 1700000000000000000
          (Some 7%nat) ∅)
       (world e).

(** The system right after [NewGraphite("stats:2003", 10s, 1s)]. *)
Definition sys0 : Sys :=
  match NewGraphite "stats:2003" 10000000000 1000000000 (world env_ok) with
  | Ok _ s => mkSys s []
  | Panic s => mkSys s []
  end.

(** The system after a schedule. *)
Definition after (acts : list Action) : Sys := default sys0 (run acts sys0).

Definition load : namedVar := mkNamedVar "load" (expVar 5).
Definition load' : namedVar := mkNamedVar "load" (expVar 6).
Definition hits : namedVar := mkNamedVar "hits" (expVar 7).

(** Two registrations, then a shutdown before any pass. *)
Definition shut_down : list Action :=
  [ACall_Register "load" (expVar 5); AArm; ARecvRegistration 0%nat;
   ACall_Register "hits" (expVar 7); AArm; ARecvRegistration 1%nat;
   ACall_Shutdown; AArm; ARecvShutdown 2%nat; AAck 2%nat].

(** Three registrations, two of them under one name, and the loop waiting
    with the timer due. *)
Definition timer_due : list Action :=
  [ACall_Register "load" (expVar 5); AArm; ARecvRegistration 0%nat;
   ACall_Register "hits" (expVar 7); AArm; ARecvRegistration 1%nat;
   ACall_Register "load" (expVar 6); AArm; ARecvRegistration 2%nat;
   AArm; AElapse 10000000000%N].

End Sample.

(** ** Reading traces *)

Definition dial_of (e : Event) : option (Conn + error) :=
  match e with EDial _ r => Some r | _ => None end.
Definition write_of (e : Event) : option (Conn * string) :=
  match e with EWrite c b _ _ => Some (c, b) | _ => None end.
Definition attempt_of (e : Event) : option string :=
  match e with EPostOne name _ _ => Some name | _ => None end.
Definition failure_of (e : Event) : option string :=
  match e with EPostOne name _ (Some err) => Some (Sprintf_log name err) | _ => None end.
Definition log_of (e : Event) : option string :=
  match e with ELog line => Some line | _ => None end.

(** The dial attempts, the lines written, the names [postAll] tried, and
    the lines logged, each in order. *)
Definition dials (tr : list Event) : list (Conn + error) := omap dial_of tr.
Definition writes (tr : list Event) : list (Conn * string) := omap write_of tr.
Definition attempts (tr : list Event) : list string := omap attempt_of tr.
Definition failures (tr : list Event) : list string := omap failure_of tr.
Definition logs (tr : list Event) : list string := omap log_of tr.

(** The connection a network event is about. *)
Definition conn_of (e : Event) : option Conn :=
  match e with
  | EDial _ (inl c) => Some c
  | ESetWriteDeadline c _ _ => Some c
  | EWrite c _ _ _ => Some c
  | EClose c => Some c
  | _ => None
  end.

(** The events of a single send: network operations only. *)
Definition is_send_event (e : Event) : bool :=
  match e with
  | EDial _ _ | ESetWriteDeadline _ _ _ | EWrite _ _ _ _ => true
  | _ => false
  end.

(** ** A pass, as the specification words it *)

(** What the world keeps of a send that has returned: the record of the
    attempt, and the line logged if it failed. *)
Definition logged (name value : string) (r : option error) (w : World) : World :=
  let w1 := emit (EPostOne name value r) w in
  match r with
  | Some e => emit (ELog (Sprintf_log name e)) w1
  | None => w1
  end.

(** Each entry in turn is rendered and sent, once, by [postOne]; a failure
    is logged, and the next entry is handled in the state the send left. *)
Inductive sent_each : list (string * Var) -> St -> St -> Prop :=
| sent_nil s : sent_each [] s s
| sent_cons name x kvs s value s0 r s1 s' :
    Var_String x s = Ok value s0 ->
    postOne name value s0 = Ok r s1 ->
    sent_each kvs (mkSt (st_g s1) (logged name value r (st_w s1))) s' ->
    sent_each ((name, x) :: kvs) s s'.

(** No value of the registry is nil. *)
Definition no_nil (m : gmap string Var) : Prop :=
  forall n, m !! n <> Some nilVar.

(** ** Registrations, as the specification words them *)

(** The value of the most recent registration under [n], if there is one. *)
Fixpoint last_registered (n : string) (nvs : list namedVar) : option Var :=
  match nvs with
  | [] => None
  | nv :: rest =>
      match last_registered n rest with
      | Some x => Some x
      | None => if decide (name nv = n) then Some (v nv) else None
      end
  end.

(** ** The invariant of the goroutines *)

(** The connection is open: the structure holds a connection that a dial to
    its endpoint returned. *)
Definition opened (s : Sys) : Prop :=
  exists c, connection (sys_g s) = Some c /\
            EDial (endpoint (sys_g s)) (inl c) ∈ w_trace (sys_w s).

(** The connection is closed: the structure holds none, and the last thing
    done to the world was to close the connection that had been dialled. *)
Definition closed (s : Sys) : Prop :=
  connection (sys_g s) = None /\
  exists tr c, w_trace (sys_w s) = tr ++ [EClose c] /\
               EDial (endpoint (sys_g s)) (inl c) ∈ tr.

(** Where a caller may stand, given where the loop stands. *)
Definition caller_ok (l : LoopState) (i : nat) (c : Caller) : Prop :=
  match c with
  | Shutdown_recv => l = LAck i
  | Shutdown_ret => l = LDone
  | _ => True
  end.

(** The loop is alive with the connection open, or it has died in a pass
    on a nil variable with the connection still open, or it has shut down
    with the connection closed. *)
Definition inv (s : Sys) : Prop :=
  (forall i c, sys_callers s !! i = Some c -> caller_ok (w_loop (sys_w s)) i c) /\
  match w_loop (sys_w s) with
  | LNone => False
  | LTop | LSelect _ => opened s
  | LPanic => opened s /\ exists n, vars (sys_g s) !! n = Some nilVar
  | LAck _ | LDone => closed s
  end.

(** ** Register, as the specification words it *)

(** The steps that the clients and the clock take on their own. *)
Definition client_action (a : Action) : bool :=
  match a with
  | ACall_Register _ _ | ACall_Shutdown | AElapse _ => true
  | _ => false
  end.

(** A call of [Register] made in [s] can return through such steps alone,
    without a step of the loop. *)
Definition Register_returns_at_once (s : Sys) (n : string) (x : Var) : Prop :=
  exists acts s',
    forallb client_action acts = true /\
    run (ACall_Register n x :: acts) s = Some s' /\
    sys_callers s' !! length (sys_callers s) = Some Register_ret.

(** ** More on traces and on where the loop stands *)

Definition close_of (e : Event) : option Conn :=
  match e with EClose c => Some c | _ => None end.

(** The connections closed, in order. *)
Definition closes (tr : list Event) : list Conn := omap close_of tr.

(** The loop is alive: at the top of its [for] or waiting in [select]. *)
Definition running (l : LoopState) : bool :=
  match l with
  | LTop | LSelect _ => true
  | _ => false
  end.

(** The clock is not behind the structure: the interval is a duration,
    [lastPublish] is not in the future, and a timer that is armed is due no
    earlier than [lastPublish + interval] and at most [interval] from now. *)
Definition inv_clock (s : Sys) : Prop :=
  is_Duration (interval (sys_g s)) /\
  lastPublish (sys_g s) <= w_now (sys_w s) /\
  match w_loop (sys_w s) with
  | LSelect deadline =>
      lastPublish (sys_g s) + interval (sys_g s) <= deadline
      <= w_now (sys_w s) + interval (sys_g s)
  | _ => True
  end.

(** Callers [i] and [j] of [Shutdown] that have both returned are one. *)
Definition one_return (s : Sys) : Prop :=
  forall i j,
    sys_callers s !! i = Some Shutdown_ret ->
    sys_callers s !! j = Some Shutdown_ret ->
    i = j.

(** The error a network operation ended with, if it did. *)
Definition op_error (e : Event) : option error :=
  match e with
  | EDial _ (inr err) => Some err
  | ESetWriteDeadline _ _ r => r
  | EWrite _ _ _ r => r
  | _ => None
  end.

(** ** Tactics *)

(** Runs [postOne] along every answer the world may give. *)
Ltac unfold_send :=
  unfold postOne, reconnect, nextPublishDelay, bind, field, io, assign, ret,
    deref_connection, net_Dial, Conn_SetWriteDeadline, Conn_Write, time_Now;
  simpl.

Ltac split_answers :=
  repeat match goal with
    | |- context [env_dial ?e ?k ?ep] =>
        destruct (env_dial e k ep) eqn:?; simpl
    | |- context [env_deadline ?e ?k ?c ?t] =>
        destruct (env_deadline e k c t) eqn:?; simpl
    | |- context [env_write ?e ?k ?c ?b] =>
        destruct (env_write e k c b) as [? [?|]] eqn:?; simpl
    | |- context [decide ?P] => destruct (decide P); simpl
    end.

(** * Properties *)

(** ** A single send *)

Lemma postOne_total name value s :
  exists r s' evs,
    postOne name value s = Ok r s' /\
    w_trace (st_w s') = w_trace (st_w s) ++ evs /\
    forallb is_send_event evs = true /\
    w_env (st_w s') = w_env (st_w s) /\
    w_loop (st_w s') = w_loop (st_w s) /\
    w_now (st_w s) <= w_now (st_w s') /\
    vars (st_g s') = vars (st_g s) /\
    lastPublish (st_g s') = lastPublish (st_g s) /\
    interval (st_g s') = interval (st_g s) /\
    endpoint (st_g s') = endpoint (st_g s) /\
    (is_Some (connection (st_g s)) -> st_g s' = st_g s) /\
    (r = None -> is_Some (connection (st_g s'))).
Proof.
  destruct s as [[ep iv tmo lp [c|] m] w]; unfold_send; split_answers.
  all: do 3 eexists; split; [reflexivity|]; simpl.
  all: rewrite <- ?app_assoc; simpl.
  all: split; [reflexivity|].
  all: repeat split; try lia; try done.
  all: by intros [? ?].
Qed.

Lemma postOne_events name value s r s' evs :
  postOne name value s = Ok r s' ->
  w_trace (st_w s') = w_trace (st_w s) ++ evs ->
  closes evs = [] /\
  attempts evs = [] /\
  (is_Some (connection (st_g s)) -> dials evs = []) /\
  timeout (st_g s') = timeout (st_g s) /\
  (length (writes evs) <= 1)%nat /\
  (forall c b, (c, b) ∈ writes evs ->
     exists now, b = Sprintf_line name value (time_Unix now)).
Proof.
  destruct s as [[ep iv tmo lp c0 m] w]. revert s'. unfold_send.
  destruct c0; simpl; split_answers.
  all: intros s' [= <- <-]; simpl; rewrite <- ?app_assoc; simpl.
  all: intros Htr%app_inv_head; subst evs; simpl.
  all: do 2 (split; [done|]).
  all: split; [by intros [? ?]|].
  all: split; [done|].
  all: split; [lia|].
  all: intros c' b'; rewrite ?elem_of_cons, elem_of_nil.
  all: intros Hin; destruct_or?; try done; simplify_eq; eauto.
Qed.

Lemma fmt_d_decimal z :
  option_map Z.of_int (NilZero.int_of_string (fmt_d z)) = Some z.
Proof.
  unfold fmt_d. rewrite NilZero.isi.
  - simpl. by rewrite DecimalZ.of_to.
  - destruct z; simpl; intros [= H]; by apply Unsigned.to_uint_nonnil in H.
  - destruct z; simpl; intros [= H]; by apply Unsigned.to_uint_nonnil in H.
Qed.

(** C6. A send that finds no connection dials exactly once, before anything
    else, and what follows is decided by the answer of that dial.  If the
    dial fails, the send returns the dial's error at once: nothing else is
    tried, nothing is written, the structure is as before, without a
    connection.  If the dial succeeds, the new connection is stored and the
    send goes on with it: the deadline is set on it, and every later
    operation of the send is on it, with no second dial. *)
Theorem postOne_reconnects_once name value s :
  connection (st_g s) = None ->
  let dr : Conn + error :=
    match env_dial (w_env (st_w s)) (w_tick (st_w s)) (endpoint (st_g s)) with
    | Some e => inr e
    | None => inl (w_tick (st_w s))
    end in
  exists r s' evs,
    postOne name value s = Ok r s' /\
    w_trace (st_w s') = w_trace (st_w s) ++ EDial (endpoint (st_g s)) dr :: evs /\
    dials evs = [] /\
    match dr with
    | inr e =>
        r = Some e /\ evs = [] /\ connection (st_g s') = None /\
        st_g s' = st_g s
    | inl c =>
        connection (st_g s') = Some c /\
        st_g s' = set_connection (Some c) (st_g s) /\
        (exists t r0 evs', evs = ESetWriteDeadline c t r0 :: evs') /\
        Forall (fun ev => conn_of ev = Some c) evs
    end.
Proof.
  destruct s as [[ep iv tmo lp c m] w]; simpl; intros ->.
  unfold_send; split_answers.
  all: do 3 eexists; split; [reflexivity|]; simpl.
  all: rewrite <- ?app_assoc; simpl.
  all: split; [reflexivity|]; split; [reflexivity|].
  all: repeat split; eauto; repeat constructor.
Qed.

Lemma postOne_reconnects_once_witness :
  (exists r s' evs,
     postOne "load" "0.5" (Sample.st Sample.env_down None) = Ok r s' /\
     w_trace (st_w s')
     = [] ++ EDial "stats:2003" (inr (OpError "connection refused")) :: evs /\
     dials evs = [] /\
     r = Some (OpError "connection refused") /\ evs = [] /\
     connection (st_g s') = None /\
     st_g s' = Sample.graphite None) /\
  (exists r s' evs,
     postOne "load" "0.5" (Sample.st Sample.env_ok None) = Ok r s' /\
     w_trace (st_w s') = [] ++ EDial "stats:2003" (inl 0%nat) :: evs /\
     dials evs = [] /\
     connection (st_g s') = Some 0%nat /\
     st_g s' = set_connection (Some 0%nat) (Sample.graphite None) /\
     (exists t r0 evs', evs = ESetWriteDeadline 0%nat t r0 :: evs') /\
     Forall (fun ev => conn_of ev = Some 0%nat) evs).
Proof.
  split.
  - exact (postOne_reconnects_once "load" "0.5"
             (Sample.st Sample.env_down None) eq_refl).
  - exact (postOne_reconnects_once "load" "0.5"
             (Sample.st Sample.env_ok None) eq_refl).
Defined.

(** C7. A send on an established connection never touches the connection
    field, whatever the outcome: after a failed deadline or write the
    structure is as before, the same connection still set.  Such a send
    never dials; a dial happens only when the field is nil.  The send that
    follows works on the same connection, again without dialling. *)
Theorem postOne_keeps_connection name value s c :
  connection (st_g s) = Some c ->
  exists r s' evs,
    postOne name value s = Ok r s' /\
    w_trace (st_w s') = w_trace (st_w s) ++ evs /\
    st_g s' = st_g s /\
    connection (st_g s') = Some c /\
    dials evs = [] /\
    Forall (fun ev => conn_of ev = Some c) evs /\
    forall name2 value2, exists r2 s2 t r0 evs2,
      postOne name2 value2 s' = Ok r2 s2 /\
      w_trace (st_w s2) = w_trace (st_w s') ++ ESetWriteDeadline c t r0 :: evs2 /\
      dials evs2 = [] /\
      connection (st_g s2) = Some c.
Proof.
  destruct s as [[ep iv tmo lp c0 m] w]; simpl; intros ->.
  unfold_send; split_answers.
  all: do 3 eexists; split; [reflexivity|]; simpl.
  all: rewrite <- ?app_assoc; simpl.
  all: split; [reflexivity|].
  all: do 4 (split; [by repeat constructor|]).
  all: intros name2 value2; unfold_send; split_answers.
  all: do 5 eexists; split; [reflexivity|]; simpl.
  all: rewrite <- ?app_assoc; simpl.
  all: split; [reflexivity|]; by split.
Qed.

Lemma postOne_keeps_connection_witness :
  exists r s' evs,
    postOne "load" "0.5" (Sample.st Sample.env_broken (Some 7%nat)) = Ok r s' /\
    w_trace (st_w s') = [] ++ evs /\
    st_g s' = Sample.graphite (Some 7%nat) /\
    connection (st_g s') = Some 7%nat /\
    dials evs = [] /\
    Forall (fun ev => conn_of ev = Some 7%nat) evs /\
    forall name2 value2, exists r2 s2 t r0 evs2,
      postOne name2 value2 s' = Ok r2 s2 /\
      w_trace (st_w s2) = w_trace (st_w s') ++ ESetWriteDeadline 7%nat t r0 :: evs2 /\
      dials evs2 = [] /\
      connection (st_g s2) = Some 7%nat.
Proof.
  apply (postOne_keeps_connection "load" "0.5"
           (Sample.st Sample.env_broken (Some 7%nat)) 7%nat).
  reflexivity.
Defined.

(** C8. When the write of a send reports no error but fewer bytes than the
    line has, the send returns the error made by [fmt.Errorf] for a short
    write: an error, not success, and not one of the transport's errors.
    The line was written once; the send does not write again. *)
Theorem postOne_short_write name value s r s' evs c b n :
  postOne name value s = Ok r s' ->
  w_trace (st_w s') = w_trace (st_w s) ++ evs ->
  EWrite c b n None ∈ evs ->
  n < len b ->
  r = Some (Errorf_short_write name value n (len b)) /\
  r <> None /\
  (forall msg, r <> Some (OpError msg)) /\
  writes evs = [(c, b)].
Proof.
  destruct s as [[ep iv tmo lp c0 m] w]. revert s'. unfold_send.
  destruct c0; simpl; split_answers.
  all: intros s' [= <- <-]; simpl; rewrite <- ?app_assoc; simpl.
  all: intros Htr%app_inv_head; subst evs.
  all: rewrite ?elem_of_cons, elem_of_nil.
  all: intros Hin Hn; destruct_or?; try done; simplify_eq.
  all: try lia.
  all: by repeat split.
Qed.

Lemma postOne_short_write_witness :
  exists r s' evs c b n,
    postOne "load" "0.5" (Sample.st Sample.env_short (Some 7%nat)) = Ok r s' /\
    w_trace (st_w s') = [] ++ evs /\
    EWrite c b n None ∈ evs /\
    n < len b /\
    r = Some (Errorf_short_write "load" "0.5" n (len b)) /\
    r <> None /\
    (forall msg, r <> Some (OpError msg)) /\
    writes evs = [(c, b)].
Proof.
  do 6 eexists.
  assert (H1 : postOne "load" "0.5" (Sample.st Sample.env_short (Some 7%nat))
               = Ok (Some (Errorf_short_write "load" "0.5" 3 20))
                    (mkSt (Sample.graphite (Some 7%nat))
                       (mkWorld Sample.env_short 1700000004000000000 4
                          [ESetWriteDeadline 7%nat 1700000002000000000 None;
                           EWrite 7%nat (Sprintf_line "load" "0.5" 1700000003) 3 None]
                          LNone))) by reflexivity.
  assert (H2 : EWrite 7%nat (Sprintf_line "load" "0.5" 1700000003) 3 None
               ∈ [ESetWriteDeadline 7%nat 1700000002000000000 None;
                  EWrite 7%nat (Sprintf_line "load" "0.5" 1700000003) 3 None])
    by (right; left).
  assert (H3 : 3 < len (Sprintf_line "load" "0.5" 1700000003)) by reflexivity.
  split; [exact H1|]. split; [reflexivity|]. split; [exact H2|].
  split; [exact H3|].
  exact (postOne_short_write _ _ _ _ _ _ _ _ _ H1 eq_refl H2 H3).
Defined.

(** C9. A send writes at most once, and what it writes is the name, a
    space, the value, a space, the Unix time in whole seconds in decimal,
    and a newline, nothing more.  The time is read during the send.  A send
    that succeeds has written its line. *)
Theorem postOne_wire_line name value s r s' evs :
  postOne name value s = Ok r s' ->
  w_trace (st_w s') = w_trace (st_w s) ++ evs ->
  (r = None -> writes evs <> []) /\
  (writes evs = [] \/
   exists c now,
     connection (st_g s') = Some c /\
     w_now (st_w s) <= now <= w_now (st_w s') /\
     option_map Z.of_int (NilZero.int_of_string (fmt_d (now / 1000000000)))
       = Some (now / 1000000000) /\
     writes evs =
       [(c, (name ++ " " ++ value ++ " " ++ fmt_d (now / 1000000000)
               ++ String (ascii_of_nat 10) EmptyString)%string)]).
Proof.
  destruct s as [[ep iv tmo lp c0 m] w]. revert s'. unfold_send.
  destruct c0; simpl; split_answers.
  all: intros s' [= <- <-]; simpl; rewrite <- ?app_assoc; simpl.
  all: intros Htr%app_inv_head; subst evs; simpl.
  all: split; [done|].
  all: try (left; reflexivity).
  all: right; eexists _, _; split; [reflexivity|].
  all: split; [|split; [apply fmt_d_decimal|reflexivity]].
  all: lia.
Qed.

Lemma postOne_wire_line_witness :
  exists r s' evs,
    postOne "load" "0.5" (Sample.st Sample.env_ok (Some 7%nat)) = Ok r s' /\
    w_trace (st_w s') = [] ++ evs /\
    r = None /\
    writes evs = [(7%nat, ("load 0.5 1700000003" ++ LF)%string)] /\
    (r = None -> writes evs <> []) /\
    (writes evs = [] \/
     exists c now,
       connection (st_g s') = Some c /\
       1700000000000000000 <= now <= w_now (st_w s') /\
       option_map Z.of_int (NilZero.int_of_string (fmt_d (now / 1000000000)))
         = Some (now / 1000000000) /\
       writes evs =
         [(c, ("load" ++ " " ++ "0.5" ++ " " ++ fmt_d (now / 1000000000)
                 ++ String (ascii_of_nat 10) EmptyString)%string)]).
Proof.
  do 3 eexists.
  assert (H1 : postOne "load" "0.5" (Sample.st Sample.env_ok (Some 7%nat))
               = Ok None
                    (mkSt (Sample.graphite (Some 7%nat))
                       (mkWorld Sample.env_ok 1700000004000000000 4
                          [ESetWriteDeadline 7%nat 1700000002000000000 None;
                           EWrite 7%nat (Sprintf_line "load" "0.5" 1700000003) 20 None]
                          LNone))) by reflexivity.
  split; [exact H1|]. split; [reflexivity|]. split; [reflexivity|].
  split; [reflexivity|].
  exact (postOne_wire_line _ _ _ _ _ _ H1 eq_refl).
Defined.

(** ** Construction *)

Lemma NewGraphite_ok ep iv tmo w g st :
  NewGraphite ep iv tmo w = Ok (Some g, None) st ->
  exists c,
    g = st_g st /\
    connection g = Some c /\
    endpoint g = ep /\
    w_loop (st_w st) = LTop /\
    EDial ep (inl c) ∈ w_trace (st_w st).
Proof.
  unfold NewGraphite, go_loop. unfold_send.
  destruct (env_dial (w_env w) (S (w_tick w)) ep) as [e|]; simpl; [done|].
  intros [= <- <-]. simpl. exists (S (w_tick w)).
  repeat split. apply elem_of_app. right. left.
Qed.

(** C1. [NewGraphite] reads the clock and then dials, and does nothing
    else to the world; what it returns is decided by the answer of that
    dial.  If the dial fails, it returns the dial's error and no
    [Graphite], and the loop is not started.  If the dial succeeds, it
    returns the structure with the arguments as given, the clock reading as
    [lastPublish], the connection the dial opened and no variables, and the
    loop is started. *)
Theorem NewGraphite_fail_fast ep iv tmo w :
  let dr : Conn + error :=
    match env_dial (w_env w) (w_tick (elapse w)) ep with
    | Some e => inr e
    | None => inl (w_tick (elapse w))
    end in
  exists st,
    w_trace (st_w st) = w_trace w ++ [EDial ep dr] /\
    w_now w <= w_now (elapse w) <= w_now (st_w st) /\
    match dr with
    | inr e =>
        NewGraphite ep iv tmo w = Ok (None, Some e) st /\
        w_loop (st_w st) = w_loop w
    | inl c =>
        NewGraphite ep iv tmo w = Ok (Some (st_g st), None) st /\
        st_g st = mkGraphite ep iv tmo (w_now (elapse w)) (Some c) ∅ /\
        w_loop (st_w st) = LTop
    end.
Proof.
  unfold NewGraphite, go_loop. unfold_send.
  destruct (env_dial (w_env w) (S (w_tick w)) ep) as [e|] eqn:Hd; simpl.
  - eexists. split; [|split]; cycle 2.
    + split; reflexivity.
    + reflexivity.
    + simpl. lia.
  - exists (mkSt (mkGraphite ep iv tmo (w_now (elapse w)) (Some (S (w_tick w))) ∅)
              (set_loop LTop
                 (emit (EDial ep (inl (S (w_tick w)))) (elapse (elapse w))))).
    simpl. repeat split; try reflexivity; lia.
Qed.

Lemma NewGraphite_fail_fast_witness :
  (exists st,
     NewGraphite "stats:2003" 10000000000 1000000000
       (Sample.world Sample.env_down)
     = Ok (None, Some (OpError "connection refused")) st /\
     w_trace (st_w st)
     = [EDial "stats:2003" (inr (OpError "connection refused"))] /\
     w_loop (st_w st) = LNone) /\
  (exists st,
     NewGraphite "stats:2003" 10000000000 1000000000
       (Sample.world Sample.env_ok)
     = Ok (Some (st_g st), None) st /\
     w_trace (st_w st) = [EDial "stats:2003" (inl 1%nat)] /\
     st_g st = mkGraphite "stats:2003" 10000000000 1000000000
                 1700000001000000000 (Some 1%nat) ∅ /\
     w_loop (st_w st) = LTop).
Proof.
  split.
  - destruct (NewGraphite_fail_fast "stats:2003" 10000000000 1000000000
                (Sample.world Sample.env_down)) as (st & Htr & _ & Hnew & Hloop).
    exists st. by repeat split.
  - destruct (NewGraphite_fail_fast "stats:2003" 10000000000 1000000000
                (Sample.world Sample.env_ok)) as (st & Htr & _ & Hnew & Hg & Hloop).
    exists st. by repeat split.
Defined.

Example NewGraphite_unreachable :
  exists st,
    NewGraphite "stats:2003" 10000000000 1000000000 (Sample.world Sample.env_down)
    = Ok (None, Some (OpError "connection refused")) st /\
    w_trace (st_w st) = [EDial "stats:2003" (inr (OpError "connection refused"))] /\
    w_loop (st_w st) = LNone.
Proof. eexists. split; [reflexivity|]. by split. Qed.

Example NewGraphite_reachable :
  sys_g Sample.sys0
  = mkGraphite "stats:2003" 10000000000 1000000000 1700000001000000000
               (Some 1%nat) ∅ /\
  w_trace (sys_w Sample.sys0) = [EDial "stats:2003" (inl 1%nat)] /\
  w_loop (sys_w Sample.sys0) = LTop.
Proof. by vm_compute. Qed.

(** ** A publish pass *)

Lemma insert_at_Permutation {A} k (x : A) l : insert_at k x l ≡ₚ x :: l.
Proof.
  revert k; induction l as [|y l IH]; intros [|k]; simpl; try done.
  rewrite IH. apply Permutation_swap.
Qed.

Lemma shuffle_Permutation {A} ks (l : list A) : shuffle ks l ≡ₚ l.
Proof.
  revert ks; induction l as [|x l IH]; intros ks; simpl; [done|].
  by rewrite insert_at_Permutation, IH.
Qed.

Lemma insert_at_middle {A} (x : A) l1 l2 :
  insert_at (length l1) x (l1 ++ l2) = l1 ++ x :: l2.
Proof.
  induction l1 as [|y l1 IH]; simpl; [by destruct l2|]. by rewrite IH.
Qed.

(** Every order of the entries is one the oracle can ask for. *)
Lemma shuffle_any {A} (l l' : list A) :
  l' ≡ₚ l -> exists ks, shuffle ks l = l'.
Proof.
  revert l'; induction l as [|x l IH]; intros l' Hp.
  - apply Permutation_nil_r in Hp as ->. by exists [].
  - assert (x ∈ l') as (l1 & l2 & ->)%list_elem_of_split
        by (rewrite Hp; left).
    rewrite <- Permutation_middle in Hp. apply Permutation_cons_inv in Hp.
    destruct (IH _ Hp) as [ks Hks].
    exists (length l1 :: ks). simpl. rewrite Hks. apply insert_at_middle.
Qed.

Lemma send_events_silent evs :
  forallb is_send_event evs = true ->
  attempts evs = [] /\ failures evs = [] /\ logs evs = [].
Proof.
  induction evs as [|e evs IH]; simpl; [done|].
  intros [He Hevs]%andb_true_iff. destruct (IH Hevs) as (H1 & H2 & H3).
  unfold attempts, failures, logs in *. simpl. rewrite H1, H2, H3.
  by destruct e.
Qed.

Lemma postAll_range_nil n kvs s :
  postAll_range ((n, nilVar) :: kvs) s = Panic s.
Proof. reflexivity. Qed.

Lemma postAll_range_cons n id kvs s :
  postAll_range ((n, expVar id) :: kvs) s =
  let value := env_String (w_env (st_w s)) (w_tick (st_w s)) id in
  match postOne n value (mkSt (st_g s) (elapse (st_w s))) with
  | Ok r s1 => postAll_range kvs (mkSt (st_g s1) (logged n value r (st_w s1)))
  | Panic s1 => Panic s1
  end.
Proof.
  simpl. unfold bind at 1. unfold io at 1, expvar_String. simpl.
  unfold bind at 1. destruct (postOne _ _ _) as [[e|] [g1 w1]|]; reflexivity.
Qed.

Lemma logged_trace n value r w :
  w_trace (logged n value r w)
  = w_trace w ++ EPostOne n value r ::
      match r with Some e => [ELog (Sprintf_log n e)] | None => [] end.
Proof. unfold logged. destruct r; simpl; by rewrite <- ?app_assoc. Qed.

(** The run of the body of the [for] of [postAll], whichever way it ends. *)
Lemma postAll_range_run kvs s :
  exists evs,
    w_trace (st_w (state_of (postAll_range kvs s))) = w_trace (st_w s) ++ evs /\
    closes evs = [] /\
    (is_Some (connection (st_g s)) ->
     dials evs = [] /\ st_g (state_of (postAll_range kvs s)) = st_g s) /\
    w_env (st_w (state_of (postAll_range kvs s))) = w_env (st_w s) /\
    w_loop (st_w (state_of (postAll_range kvs s))) = w_loop (st_w s) /\
    w_now (st_w s) <= w_now (st_w (state_of (postAll_range kvs s))) /\
    vars (st_g (state_of (postAll_range kvs s))) = vars (st_g s) /\
    lastPublish (st_g (state_of (postAll_range kvs s))) = lastPublish (st_g s) /\
    interval (st_g (state_of (postAll_range kvs s))) = interval (st_g s) /\
    endpoint (st_g (state_of (postAll_range kvs s))) = endpoint (st_g s) /\
    timeout (st_g (state_of (postAll_range kvs s))) = timeout (st_g s) /\
    match postAll_range kvs s with
    | Ok _ s' =>
        attempts evs = kvs.*1 /\
        logs evs = failures evs /\
        sent_each kvs s s' /\
        (length (writes evs) <= length kvs)%nat /\
        (forall c b, (c, b) ∈ writes evs ->
           exists n x value now r0,
             (n, x) ∈ kvs /\
             EPostOne n value r0 ∈ evs /\
             b = Sprintf_line n value (time_Unix now))
    | Panic _ => exists n, (n, nilVar) ∈ kvs
    end /\
    (Forall (fun kv => kv.2 <> nilVar) kvs ->
     exists s', postAll_range kvs s = Ok tt s').
Proof.
  revert s; induction kvs as [|[n [|id]] kvs IH]; intros s.
  - exists []. simpl. rewrite app_nil_r.
    repeat split; try done; try lia.
    + constructor.
    + intros c b Hin. by apply elem_of_nil in Hin.
    + by exists s.
  - exists []. rewrite postAll_range_nil. simpl. rewrite app_nil_r.
    repeat split; try done; try lia.
    + exists n. left.
    + intros [Hnil _]%Forall_cons. done.
  - rewrite postAll_range_cons. cbv zeta.
    set (value := env_String (w_env (st_w s)) (w_tick (st_w s)) id).
    destruct (postOne_total n value (mkSt (st_g s) (elapse (st_w s))))
      as (r & s1 & evs1 & Hone & Htr1 & Hsend & Henv1 & Hloop1 & Hnow1 & Hv1
          & Hlp1 & Hiv1 & Hep1 & Hg1 & _).
    rewrite Hone.
    destruct (postOne_events _ _ _ _ _ _ Hone Htr1)
      as (Hcl1 & Hat1 & Hd1 & Htmo1 & Hlen1 & Hw1).
    apply send_events_silent in Hsend as (_ & Hf1 & Hl1).
    simpl in Htr1, Henv1, Hloop1, Hnow1, Hv1, Hlp1, Hiv1, Hep1, Hg1, Hd1, Htmo1.
    set (s2 := mkSt (st_g s1) (logged n value r (st_w s1))).
    set (mid := EPostOne n value r ::
                match r with Some e => [ELog (Sprintf_log n e)] | None => [] end).
    assert (Htr2 : w_trace (st_w s2) = w_trace (st_w s) ++ evs1 ++ mid).
    { subst s2 mid. simpl. rewrite logged_trace, Htr1. by rewrite <- app_assoc. }
    assert (Hsame2 : w_env (st_w s2) = w_env (st_w s1) /\
                     w_loop (st_w s2) = w_loop (st_w s1) /\
                     w_now (st_w s2) = w_now (st_w s1)).
    { subst s2. unfold logged. by destruct r. }
    destruct Hsame2 as (Henv2 & Hloop2 & Hnow2).
    assert (Hmid : closes mid = [] /\ dials mid = [] /\ writes mid = [] /\
                   attempts mid = [n] /\ logs mid = failures mid).
    { subst mid. by destruct r. }
    destruct Hmid as (Hclm & Hdm & Hwm & Hatm & Hlm).
    destruct (IH s2) as (evs2 & Htr' & Hcl2 & Hd2 & Henv' & Hloop' & Hnow' & Hv'
                         & Hlp' & Hiv' & Hep' & Htmo' & Hres & Hok).
    set (res := postAll_range kvs s2) in *.
    exists (evs1 ++ mid ++ evs2).
    split; [by rewrite Htr', Htr2, <- !app_assoc|].
    unfold closes, dials, writes, attempts, logs, failures in *.
    rewrite !omap_app, Hcl1, Hclm, Hcl2, Hwm, Hat1, Hatm, Hl1, Hf1, Hlm.
    split; [done|]. split.
    { intros Hs. destruct (Hd2 ltac:(subst s2; simpl; by rewrite Hg1)) as [Hd2' Hg2].
      rewrite Hd1, Hdm, Hd2' by done. split; [done|].
      rewrite Hg2. subst s2. simpl. by rewrite Hg1. }
    do 8 (split; [subst s2; simpl in *; try congruence; try lia|]).
    split.
    + destruct res as [[] s'|s'] eqn:Hr.
      * destruct Hres as (Hat2 & Hl2 & Hsent & Hlen2 & Hw2).
        rewrite Hat2, Hl2. simpl. do 2 (split; [done|]). split; [|split].
        -- eapply sent_cons; [reflexivity|exact Hone|exact Hsent].
        -- rewrite length_app. simpl. lia.
        -- simpl. intros c b [Hin|Hin]%elem_of_app.
           ++ destruct (Hw1 _ _ Hin) as [now ->].
              exists n, (expVar id), value, now, r. split; [left|].
              split; [|done]. apply elem_of_app. right. left.
           ++ destruct (Hw2 _ _ Hin)
                as (n' & x' & value' & now & r0 & Hk & Hev & ->).
              exists n', x', value', now, r0. split; [by right|].
              split; [|done].
              apply elem_of_app. right. right. apply elem_of_app. by right.
      * destruct Hres as [n' Hn']. exists n'. by right.
    + intros [_ Hall]%Forall_cons. by apply Hok.
Qed.

Lemma postAll_eq s :
  postAll s =
  match postAll_range
          (shuffle (env_order (w_env (st_w s)) (w_tick (st_w s)))
             (map_to_list (vars (st_g s))))
          (mkSt (st_g s) (elapse (st_w s))) with
  | Ok _ s1 =>
      Ok tt (mkSt (set_lastPublish (w_now (elapse (st_w s1))) (st_g s1))
               (elapse (st_w s1)))
  | Panic s1 => Panic s1
  end.
Proof.
  unfold postAll, range_vars, bind, field, io, ret, assign, range_order,
    time_Now. simpl.
  destruct (postAll_range _ _); reflexivity.
Qed.

(** The run of a pass, whichever way it ends. *)
Lemma postAll_run s :
  exists evs,
    w_trace (st_w (state_of (postAll s))) = w_trace (st_w s) ++ evs /\
    closes evs = [] /\
    (is_Some (connection (st_g s)) ->
     dials evs = [] /\
     connection (st_g (state_of (postAll s))) = connection (st_g s)) /\
    w_env (st_w (state_of (postAll s))) = w_env (st_w s) /\
    w_loop (st_w (state_of (postAll s))) = w_loop (st_w s) /\
    w_now (st_w s) <= w_now (st_w (state_of (postAll s))) /\
    vars (st_g (state_of (postAll s))) = vars (st_g s) /\
    interval (st_g (state_of (postAll s))) = interval (st_g s) /\
    endpoint (st_g (state_of (postAll s))) = endpoint (st_g s) /\
    timeout (st_g (state_of (postAll s))) = timeout (st_g s) /\
    match postAll s with
    | Ok _ s' =>
        lastPublish (st_g s') = w_now (st_w s') /\
        logs evs = failures evs /\
        (length (writes evs) <= size (vars (st_g s)))%nat /\
        (forall c b, (c, b) ∈ writes evs ->
           exists n x value now r0,
             vars (st_g s) !! n = Some x /\
             EPostOne n value r0 ∈ evs /\
             b = Sprintf_line n value (time_Unix now)) /\
        exists kvs s1,
          kvs ≡ₚ map_to_list (vars (st_g s)) /\
          attempts evs = kvs.*1 /\
          sent_each kvs (mkSt (st_g s) (elapse (st_w s))) s1 /\
          s' = mkSt (set_lastPublish (w_now (elapse (st_w s1))) (st_g s1))
                 (elapse (st_w s1))
    | Panic s' =>
        lastPublish (st_g s') = lastPublish (st_g s) /\
        exists n, vars (st_g s) !! n = Some nilVar
    end /\
    (no_nil (vars (st_g s)) -> exists s', postAll s = Ok tt s').
Proof.
  rewrite postAll_eq. set (kvs := shuffle _ _).
  assert (Hperm : kvs ≡ₚ map_to_list (vars (st_g s)))
    by apply shuffle_Permutation.
  destruct (postAll_range_run kvs (mkSt (st_g s) (elapse (st_w s))))
    as (evs & Htr & Hcl & Hd & Henv & Hloop & Hnow & Hv & Hlp & Hiv & Hep
        & Htmo & Hres & Hok).
  exists evs.
  destruct (postAll_range kvs _) as [[] s1|s1] eqn:Hr; simpl in *.
  - destruct Hres as (Hat & Hl & Hsent & Hlen & Hw).
    do 2 (split; [done|]). split.
    { intros Hs. destruct (Hd Hs) as [Hd' Hg]. by rewrite Hg. }
    do 7 (split; [try done; try lia|]).
    split; [|by eauto].
    do 2 (split; [done|]). split; [|split].
    + by rewrite <- length_map_to_list, <- Hperm.
    + intros c b Hin.
      destruct (Hw _ _ Hin) as (n & x & value & now & r0 & Hk & Hev & ->).
      exists n, x, value, now, r0. split; [|done].
      rewrite Hperm in Hk. by apply elem_of_map_to_list in Hk.
    + by exists kvs, s1.
  - do 2 (split; [done|]). split.
    { intros Hs. destruct (Hd Hs) as [Hd' Hg]. by rewrite Hg. }
    do 7 (split; [try done; try lia|]).
    split.
    + split; [done|]. destruct Hres as [n Hn]. exists n.
      rewrite Hperm in Hn. by apply elem_of_map_to_list in Hn.
    + intros Hno. destruct Hok as [s' Hs']; [|done].
      apply Forall_forall. intros [n x] Hin Hx. simpl in Hx. subst x.
      rewrite Hperm in Hin. apply elem_of_map_to_list in Hin. by apply (Hno n).
Qed.




(** C3, as the specification has it, fails: here a nil value is registered
    under [load] beside [hits], the pass meets it first and stops there;
    [hits] is never tried, nothing is sent or logged, and [lastPublish] is
    not set. *)
Lemma postAll_stops_at_nil :
  vars (Sample.graphite_nil (Some 7%nat)) !! "hits" = Some (expVar 2) /\
  match postAll (Sample.st_nil Sample.env_ok (Some 7%nat)) with
  | Ok _ _ => False
  | Panic st =>
      attempts (w_trace (st_w st)) = [] /\
      w_trace (st_w st) = [] /\
      lastPublish (st_g st) = 1700000000000000000 /\
      lastPublish (st_g st) < w_now (st_w st)
  end.
Proof. vm_compute. by repeat split. Qed.

(** A pass over two variables on a connection whose writes all fail: both
    are tried, both failures are logged, the connection is still set and
    [lastPublish] has moved. *)
Example postAll_on_broken_connection :
  match postAll (Sample.st Sample.env_broken (Some 7%nat)) with
  | Ok _ s' =>
      attempts (w_trace (st_w s')) = ["load"; "hits"] /\
      logs (w_trace (st_w s'))
      = ["g2g: load: broken pipe"; "g2g: hits: broken pipe"] /\
      writes (w_trace (st_w s'))
      = [(7%nat, ("load 1 1700000005" ++ LF)%string);
         (7%nat, ("hits 2 1700000010" ++ LF)%string)] /\
      connection (st_g s') = Some 7%nat /\
      lastPublish (st_g s') = 1700000012000000000
  | Panic _ => False
  end.
Proof. vm_compute. by repeat split. Qed.

(** ** The event loop *)

Lemma select_arm_eq s :
  select_arm s =
  Ok (LSelect (w_now (elapse (elapse (st_w s)))
               + time_Sub (lastPublish (st_g s) + interval (st_g s))
                          (w_now (elapse (st_w s)))))
     (mkSt (st_g s) (elapse (elapse (st_w s)))).
Proof. reflexivity. Qed.

Lemma loop_case_registration nv s :
  loop_case (CaseRegistration nv) s =
  Ok LTop (mkSt (set_vars (<[name nv := v nv]> (vars (st_g s))) (st_g s)) (st_w s)).
Proof. reflexivity. Qed.

Lemma loop_case_shutdown q s :
  loop_case (CaseShutdown q) s =
  match connection (st_g s) with
  | Some c =>
      Ok (LAck q) (mkSt (set_connection None (st_g s))
                     (emit (EClose c) (elapse (st_w s))))
  | None => Panic s
  end.
Proof.
  unfold loop_case, bind, deref_connection. by destruct (connection (st_g s)).
Qed.

(** The timer case: the loop is back at the top of its [for] after the
    pass, or dead if the pass panicked. *)
Lemma run_loop_timer s :
  run_loop (loop_case CaseTimer) s =
  mkSt (st_g (state_of (postAll s)))
       (set_loop (match postAll s with Ok _ _ => LTop | Panic _ => LPanic end)
                 (st_w (state_of (postAll s)))).
Proof.
  unfold run_loop, loop_case, bind, ret. by destruct (postAll s) as [[] ?|?].
Qed.

Lemma run_loop_ok m st l st' :
  m st = Ok l st' -> run_loop m st = mkSt (st_g st') (set_loop l (st_w st')).
Proof. unfold run_loop. by intros ->. Qed.

Lemma caller_ok_running l l' i c :
  (forall q, l <> LAck q) -> l <> LDone -> caller_ok l i c -> caller_ok l' i c.
Proof.
  intros H1 H2. destruct c; simpl; try done.
  intros ->. by destruct (H1 i).
Qed.

Lemma inv_new ep iv tmo w g st :
  NewGraphite ep iv tmo w = Ok (Some g, None) st ->
  inv (mkSys st []).
Proof.
  intros (c & -> & Hc & <- & Hloop & Hin)%NewGraphite_ok.
  split; [by intros i c' [=]|].
  unfold sys_w, sys_g; simpl. rewrite Hloop. by exists c.
Qed.

Lemma step_inv a s s' : inv s -> step a s = Some s' -> inv s'.
Proof.
  destruct s as [[g w] cs]. intros Hinv Hstep.
  unfold inv, opened, closed, sys_g, sys_w in *.
  cbn [sys_st sys_callers st_w st_g] in Hinv. destruct Hinv as [Hcs Hl].
  destruct a; unfold step in Hstep; cbn [sys_st sys_callers st_w st_g] in Hstep.
  - (* a call of Register *)
    apply (inj Some) in Hstep as <-. simpl. split; [|done].
    intros i c [Hi|[_ Hi]]%lookup_app_Some; [by eauto|].
    destruct (i - length cs)%nat; [|done]. by injection Hi as <-.
  - (* a call of Shutdown *)
    apply (inj Some) in Hstep as <-. simpl. split; [|done].
    intros i c [Hi|[_ Hi]]%lookup_app_Some; [by eauto|].
    destruct (i - length cs)%nat; [|done]. by injection Hi as <-.
  - (* time passes *)
    apply (inj Some) in Hstep as <-. simpl. done.
  - (* the loop enters select *)
    destruct (w_loop w) eqn:Hloop; try done.
    apply (inj Some) in Hstep as <-.
    rewrite (run_loop_ok _ _ _ _ (select_arm_eq _)). simpl.
    split.
    + intros i c Hi. eapply caller_ok_running; [| |by eauto]; done.
    + done.
  - (* a registration is received *)
    destruct (w_loop w) eqn:Hloop; try done.
    destruct (cs !! i) as [[nv| | | |]|] eqn:Hi; try done.
    apply (inj Some) in Hstep as <-.
    rewrite (run_loop_ok _ _ _ _ (loop_case_registration _ _)). simpl.
    split; [|done].
    intros j c Hj. destruct (decide (i = j)) as [<-|Hne].
    * rewrite list_lookup_insert_eq in Hj by (by eapply lookup_lt_Some).
      by injection Hj as <-.
    * rewrite list_lookup_insert_ne in Hj by done.
      eapply caller_ok_running; [| |by eauto]; done.
  - (* the timer fires *)
    destruct (w_loop w) eqn:Hloop; try done.
    destruct (decide _); [|done].
    apply (inj Some) in Hstep as <-.
    rewrite run_loop_timer.
    destruct (postAll_run (mkSt g w))
      as (evs & Htr & _ & Hd & _ & _ & _ & Hv & _ & Hep & _ & Hres & _).
    destruct Hl as (c & Hgc & Hin).
    destruct (Hd ltac:(by exists c)) as [_ Hc]. simpl in *.
    assert (Hopen : exists c0,
              connection (st_g (state_of (postAll (mkSt g w)))) = Some c0 /\
              EDial (endpoint (st_g (state_of (postAll (mkSt g w))))) (inl c0)
              ∈ w_trace (st_w (state_of (postAll (mkSt g w))))).
    { exists c. rewrite Hc, Hep, Htr. split; [done|].
      apply elem_of_app. by left. }
    destruct (postAll (mkSt g w)) as [[] s1|s1]; simpl in *.
    + split; [|done].
      intros i c' Hi. eapply caller_ok_running; [| |by eauto]; done.
    + split; [|split; [done|]].
      * intros i c' Hi. eapply caller_ok_running; [| |by eauto]; done.
      * destruct Hres as [_ [n Hn]]. exists n. by rewrite Hv.
  - (* a shutdown request is received *)
    destruct (w_loop w) eqn:Hloop; try done.
    destruct (cs !! i) as [[nv| | | |]|] eqn:Hi; try done.
    apply (inj Some) in Hstep as <-.
    destruct Hl as (c & Hgc & Hin).
    assert (Hcase := loop_case_shutdown i (mkSt g w)).
    cbn [st_g] in Hcase. rewrite Hgc in Hcase.
    rewrite (run_loop_ok _ _ _ _ Hcase). simpl. split.
    + intros j c' Hj. destruct (decide (i = j)) as [<-|Hne].
      * rewrite list_lookup_insert_eq in Hj by (by eapply lookup_lt_Some).
        by injection Hj as <-.
      * rewrite list_lookup_insert_ne in Hj by done.
        eapply caller_ok_running; [| |by eauto]; done.
    + split; [done|]. by exists (w_trace w), c.
  - (* the acknowledgement is received *)
    destruct (w_loop w) eqn:Hloop; try done.
    destruct (cs !! i) as [[nv| | | |]|] eqn:Hi; try done.
    destruct (decide _) as [->|]; [|done].
    apply (inj Some) in Hstep as <-. simpl. split; [|done].
    intros j c' Hj. destruct (decide (i = j)) as [<-|Hne].
    + rewrite list_lookup_insert_eq in Hj by (by eapply lookup_lt_Some).
      by injection Hj as <-.
    + rewrite list_lookup_insert_ne in Hj by done.
      specialize (Hcs _ _ Hj). destruct c'; simpl in *; try done.
      congruence.
Qed.

Lemma reachable_inv s : reachable s -> inv s.
Proof.
  induction 1 as [ep iv tmo w g st _ _ Hnew|s a s' _ IH Hstep].
  - by eapply inv_new.
  - by eapply step_inv.
Qed.

Lemma reachable_run acts s s' :
  reachable s -> run acts s = Some s' -> reachable s'.
Proof.
  revert s; induction acts as [|a acts IH]; simpl; intros s Hs Hrun.
  - by injection Hrun as <-.
  - destruct (step a s) as [s1|] eqn:Hstep; [|done].
    eapply IH; [|done]. by eapply reach_step.
Qed.

(** Once the loop has returned, nothing moves but the clock and the clients
    that keep calling. *)
Lemma step_done a s s' :
  w_loop (sys_w s) = LDone -> step a s = Some s' ->
  w_loop (sys_w s') = LDone /\
  sys_g s' = sys_g s /\
  w_trace (sys_w s') = w_trace (sys_w s) /\
  (forall i c, sys_callers s !! i = Some c -> sys_callers s' !! i = Some c).
Proof.
  destruct s as [[g w] cs]. unfold sys_w, sys_g. simpl. intros Hloop Hstep.
  destruct a; unfold step in Hstep; cbn [sys_st sys_callers st_w st_g] in Hstep;
    rewrite ?Hloop in Hstep; try done.
  all: apply (inj Some) in Hstep as <-; simpl; repeat split; try done.
  all: intros i c Hi; by apply lookup_app_l_Some.
Qed.

Lemma run_done acts s s' :
  w_loop (sys_w s) = LDone -> run acts s = Some s' ->
  w_loop (sys_w s') = LDone /\
  sys_g s' = sys_g s /\
  w_trace (sys_w s') = w_trace (sys_w s) /\
  (forall i c, sys_callers s !! i = Some c -> sys_callers s' !! i = Some c).
Proof.
  revert s; induction acts as [|a acts IH]; simpl; intros s Hloop Hrun.
  - by apply (inj Some) in Hrun as <-.
  - destruct (step a s) as [s1|] eqn:Hstep; [|done].
    destruct (step_done _ _ _ Hloop Hstep) as (Hl1 & Hg1 & Htr1 & Hcs1).
    destruct (IH _ Hl1 Hrun) as (Hl & Hg & Htr & Hcs).
    repeat split; try congruence. eauto.
Qed.

(** C2. When a call of [Shutdown] has returned, the loop has returned, the
    structure holds no connection, and the last thing done to the world was
    to close the connection that had been dialled.  From then on, whatever
    the clients and the clock do, the loop stays returned, the structure
    and the trace stay as they are (no send, no write, no dial), and the
    timer case cannot be taken any more. *)
Theorem Shutdown_drains_and_closes s i :
  reachable s ->
  sys_callers s !! i = Some Shutdown_ret ->
  w_loop (sys_w s) = LDone /\
  connection (sys_g s) = None /\
  (exists tr c, w_trace (sys_w s) = tr ++ [EClose c] /\
                EDial (endpoint (sys_g s)) (inl c) ∈ tr) /\
  forall acts s', run acts s = Some s' ->
    w_loop (sys_w s') = LDone /\
    sys_g s' = sys_g s /\
    w_trace (sys_w s') = w_trace (sys_w s) /\
    step ATimer s' = None /\
    step AArm s' = None.
Proof.
  intros [Hcs Hl]%reachable_inv Hi.
  assert (Hloop : w_loop (sys_w s) = LDone) by (apply (Hcs _ _ Hi)).
  rewrite Hloop in Hl. destruct Hl as [Hc Hclosed].
  do 3 (split; [done|]).
  intros acts s' Hrun.
  destruct (run_done _ _ _ Hloop Hrun) as (Hl' & Hg' & Htr' & _).
  do 3 (split; [done|]).
  unfold step; unfold sys_w in Hl'; by rewrite Hl'.
Qed.

Lemma reachable_sample acts s :
  run acts Sample.sys0 = Some s -> reachable s.
Proof.
  apply reachable_run.
  apply (reach_new "stats:2003" 10000000000 1000000000
           (Sample.world Sample.env_ok)
           (st_g (sys_st Sample.sys0)) (sys_st Sample.sys0)).
  - unfold is_Duration, minDuration, maxDuration. lia.
  - unfold is_Duration, minDuration, maxDuration. lia.
  - vm_compute. reflexivity.
Qed.

Lemma Shutdown_drains_and_closes_witness :
  let s := Sample.after Sample.shut_down in
  w_loop (sys_w s) = LDone /\
  connection (sys_g s) = None /\
  (exists tr c, w_trace (sys_w s) = tr ++ [EClose c] /\
                EDial (endpoint (sys_g s)) (inl c) ∈ tr) /\
  forall acts s', run acts s = Some s' ->
    w_loop (sys_w s') = LDone /\
    sys_g s' = sys_g s /\
    w_trace (sys_w s') = w_trace (sys_w s) /\
    step ATimer s' = None /\
    step AArm s' = None.
Proof.
  apply (Shutdown_drains_and_closes (Sample.after Sample.shut_down) 2%nat).
  - apply (reachable_sample Sample.shut_down). vm_compute. reflexivity.
  - vm_compute. reflexivity.
Defined.

(** ** The registry *)

(** Only the registration case writes to the registry. *)
Lemma step_vars a s s' :
  step a s = Some s' ->
  vars (sys_g s') =
  match received_by a s with
  | Some nv => <[name nv := v nv]> (vars (sys_g s))
  | None => vars (sys_g s)
  end.
Proof.
  destruct s as [[g w] cs]. unfold sys_g, received_by. intros Hstep.
  destruct a; unfold step in Hstep; cbn [sys_st sys_callers st_w st_g] in *.
  1-3: by apply (inj Some) in Hstep as <-.
  - destruct (w_loop w); try done. apply (inj Some) in Hstep as <-.
    by rewrite (run_loop_ok _ _ _ _ (select_arm_eq _)).
  - destruct (w_loop w); try done; destruct (cs !! i) as [[nv| | | |]|]; try done.
    apply (inj Some) in Hstep as <-.
    by rewrite (run_loop_ok _ _ _ _ (loop_case_registration _ _)).
  - destruct (w_loop w); try done. destruct (decide _); [|done].
    apply (inj Some) in Hstep as <-.
    rewrite run_loop_timer.
    by destruct (postAll_run (mkSt g w))
      as (evs & _ & _ & _ & _ & _ & _ & Hv & _).
  - destruct (w_loop w); try done; destruct (cs !! i) as [[nv| | | |]|]; try done.
    apply (inj Some) in Hstep as <-.
    unfold run_loop. rewrite loop_case_shutdown. simpl.
    by destruct (connection g).
  - destruct (w_loop w); try done; destruct (cs !! i) as [[nv| | | |]|]; try done.
    destruct (decide _); [|done]. by apply (inj Some) in Hstep as <-.
Qed.

Lemma last_registered_app n nvs1 nvs2 :
  last_registered n (nvs1 ++ nvs2) =
  match last_registered n nvs2 with
  | Some x => Some x
  | None => last_registered n nvs1
  end.
Proof.
  induction nvs1 as [|nv nvs1 IH]; simpl.
  - by destruct (last_registered n nvs2).
  - rewrite IH. by destruct (last_registered n nvs2).
Qed.

(** C4. Along every schedule, the registry ends up mapping each name to
    the value of the last registration the loop received under that name,
    and to what it mapped before if there was none; so no entry is ever
    removed.  Receiving a registration always goes through: the loop stores
    the value under the name, whether the name was there or not, and is
    back at the top of its [for]. *)
Theorem registry_last_write_wins acts s s' :
  run acts s = Some s' ->
  (forall n,
     vars (sys_g s') !! n =
     match last_registered n (received acts s) with
     | Some x => Some x
     | None => vars (sys_g s) !! n
     end) /\
  (forall n, is_Some (vars (sys_g s) !! n) -> is_Some (vars (sys_g s') !! n)) /\
  (forall i nv deadline,
     w_loop (sys_w s') = LSelect deadline ->
     sys_callers s' !! i = Some (Register_send nv) ->
     exists s'',
       step (ARecvRegistration i) s' = Some s'' /\
       w_loop (sys_w s'') = LTop /\
       vars (sys_g s'') = <[name nv := v nv]> (vars (sys_g s'))).
Proof.
  intros Hrun.
  assert (Hlast : forall n,
     vars (sys_g s') !! n =
     match last_registered n (received acts s) with
     | Some x => Some x
     | None => vars (sys_g s) !! n
     end).
  { revert s Hrun; induction acts as [|a acts IH]; simpl; intros s Hrun n.
    - by apply (inj Some) in Hrun as <-.
    - destruct (step a s) as [s1|] eqn:Hstep; [|done].
      rewrite (IH _ Hrun n), last_registered_app, (step_vars _ _ _ Hstep).
      destruct (last_registered n (received acts s1)); [done|].
      destruct (received_by a s) as [nv|]; simpl; [|done].
      destruct (decide (name nv = n)) as [<-|Hne].
      + by rewrite lookup_insert_eq.
      + by rewrite lookup_insert_ne. }
  split; [done|]. split.
  - intros n Hn. rewrite Hlast.
    by destruct (last_registered n (received acts s)).
  - intros i nv deadline Hloop Hi. unfold step, sys_w in *.
    rewrite Hloop, Hi. eexists. split; [reflexivity|].
    by rewrite (run_loop_ok _ _ _ _ (loop_case_registration _ _)).
Qed.

Lemma registry_last_write_wins_witness :
  let s' := Sample.after Sample.timer_due in
  received Sample.timer_due Sample.sys0 = [Sample.load; Sample.hits; Sample.load'] /\
  vars (sys_g s') !! "load" = Some (expVar 6) /\
  vars (sys_g s') !! "hits" = Some (expVar 7) /\
  (forall n,
     vars (sys_g s') !! n =
     match last_registered n (received Sample.timer_due Sample.sys0) with
     | Some x => Some x
     | None => vars (sys_g Sample.sys0) !! n
     end) /\
  (forall n, is_Some (vars (sys_g Sample.sys0) !! n) ->
             is_Some (vars (sys_g s') !! n)) /\
  (forall i nv deadline,
     w_loop (sys_w s') = LSelect deadline ->
     sys_callers s' !! i = Some (Register_send nv) ->
     exists s'',
       step (ARecvRegistration i) s' = Some s'' /\
       w_loop (sys_w s'') = LTop /\
       vars (sys_g s'') = <[name nv := v nv]> (vars (sys_g s'))).
Proof.
  split; [vm_compute; reflexivity|].
  split; [vm_compute; reflexivity|].
  split; [vm_compute; reflexivity|].
  apply (registry_last_write_wins Sample.timer_due Sample.sys0
           (Sample.after Sample.timer_due)).
  vm_compute. reflexivity.
Defined.

(** ** The cadence of the passes *)

Lemma min_le_max_Duration : minDuration <= 0 <= maxDuration.
Proof. by vm_compute. Qed.

Lemma time_Sub_clamp t u :
  time_Sub t u = Z.max minDuration (Z.min maxDuration (t - u)).
Proof.
  unfold time_Sub. pose proof min_le_max_Duration.
  destruct (Z.ltb_spec (t - u) minDuration);
    [|destruct (Z.ltb_spec maxDuration (t - u))]; lia.
Qed.


Lemma nextPublishDelay_eq s :
  nextPublishDelay s =
  Ok (time_Sub (lastPublish (st_g s) + interval (st_g s))
        (w_now (elapse (st_w s))))
     (mkSt (st_g s) (elapse (st_w s))).
Proof. reflexivity. Qed.

Lemma inv_clock_new ep iv tmo w g st :
  is_Duration iv ->
  NewGraphite ep iv tmo w = Ok (Some g, None) st ->
  inv_clock (mkSys st []).
Proof.
  intros Hiv. unfold NewGraphite, go_loop. unfold_send.
  destruct (env_dial (w_env w) (S (w_tick w)) ep) as [e|]; simpl; [done|].
  intros [= <- <-]. unfold inv_clock, sys_g, sys_w. simpl.
  split; [done|]. split; [lia|done].
Qed.

Lemma step_inv_clock a s s' :
  inv_clock s -> step a s = Some s' -> inv_clock s'.
Proof.
  destruct s as [[g w] cs]. unfold inv_clock, sys_g, sys_w.
  cbn [sys_st sys_callers st_w st_g]. intros (Hiv & Hlp & Hdl) Hstep.
  destruct a; unfold step in Hstep; cbn [sys_st sys_callers st_w st_g] in *.
  1-2: by apply (inj Some) in Hstep as <-.
  - apply (inj Some) in Hstep as <-. simpl.
    split; [done|]. split; [lia|]. destruct (w_loop w); try done. lia.
  - destruct (w_loop w); try done. apply (inj Some) in Hstep as <-.
    rewrite (run_loop_ok _ _ _ _ (select_arm_eq _)). simpl.
    rewrite time_Sub_clamp. unfold is_Duration in Hiv.
    split; [done|]. lia.
  - destruct (w_loop w); try done; destruct (cs !! i) as [[nv| | | |]|]; try done.
    apply (inj Some) in Hstep as <-.
    by rewrite (run_loop_ok _ _ _ _ (loop_case_registration _ _)).
  - destruct (w_loop w); try done. destruct (decide _); [|done].
    apply (inj Some) in Hstep as <-. rewrite run_loop_timer.
    destruct (postAll_run (mkSt g w))
      as (evs & _ & _ & _ & _ & _ & Hnow & _ & Hiv' & _ & _ & Hres & _).
    simpl in *. rewrite Hiv'. split; [done|].
    destruct (postAll (mkSt g w)) as [[] s1|s1]; simpl in *.
    + destruct Hres as [-> _]. split; [lia|done].
    + destruct Hres as [-> _]. split; [lia|done].
  - destruct (w_loop w); try done; destruct (cs !! i) as [[nv| | | |]|]; try done.
    apply (inj Some) in Hstep as <-.
    unfold run_loop. rewrite loop_case_shutdown. simpl.
    destruct (connection g); simpl; split; try done; split; try done; lia.
  - destruct (w_loop w); try done; destruct (cs !! i) as [[nv| | | |]|]; try done.
    destruct (decide _); [|done]. by apply (inj Some) in Hstep as <-.
Qed.

Lemma reachable_inv_clock s : reachable s -> inv_clock s.
Proof.
  induction 1 as [ep iv tmo w g st Hiv _ Hnew|s a s' _ IH Hstep].
  - by eapply inv_clock_new.
  - by eapply step_inv_clock.
Qed.



(** C5, as the specification has it, fails.  With an interval at the lower
    bound of [Duration], the delay computed one second after [lastPublish]
    is that bound, not [lastPublish + interval - now], which lies a second
    below it.  And a pass over a registry with a nil value does not reach
    its end: [lastPublish] is not set. *)
Lemma nextPublishDelay_saturates :
  (exists now s1,
     io time_Now (Sample.st_min Sample.env_ok) = Ok now s1 /\
     nextPublishDelay (Sample.st_min Sample.env_ok) = Ok minDuration s1 /\
     lastPublish (st_g (Sample.st_min Sample.env_ok))
     + interval (st_g (Sample.st_min Sample.env_ok)) - now
     = minDuration - 1000000000 /\
     nextPublishDelay (Sample.st_min Sample.env_ok)
     <> Ok (lastPublish (st_g (Sample.st_min Sample.env_ok))
            + interval (st_g (Sample.st_min Sample.env_ok)) - now) s1) /\
  (exists st,
     postAll (Sample.st_nil Sample.env_ok (Some 7%nat)) = Panic st /\
     lastPublish (st_g st) = 1700000000000000000 /\
     lastPublish (st_g st) < w_now (st_w st)).
Proof.
  split.
  - eexists _, _. split; [reflexivity|]. split; [reflexivity|].
    split; [reflexivity|]. by intros [= H].
  - eexists. split; [reflexivity|]. by vm_compute.
Qed.

(** ** Register *)

(** A caller at the send of [Register] stays there, unless the step is the
    loop receiving its registration. *)
Lemma step_Register_send a s s' i nv :
  sys_callers s !! i = Some (Register_send nv) ->
  step a s = Some s' ->
  (a = ARecvRegistration i /\
   (exists deadline, w_loop (sys_w s) = LSelect deadline) /\
   sys_callers s' !! i = Some Register_ret /\
   vars (sys_g s') = <[name nv := v nv]> (vars (sys_g s)))
  \/ sys_callers s' !! i = Some (Register_send nv).
Proof.
  destruct s as [[g w] cs]. unfold sys_g, sys_w. intros Hi Hstep.
  destruct a; unfold step in Hstep; cbn [sys_st sys_callers st_w st_g] in *.
  - apply (inj Some) in Hstep as <-. right. by apply lookup_app_l_Some.
  - apply (inj Some) in Hstep as <-. right. by apply lookup_app_l_Some.
  - apply (inj Some) in Hstep as <-. by right.
  - destruct (w_loop w); try done. apply (inj Some) in Hstep as <-. by right.
  - destruct (w_loop w) eqn:Hloop; try done.
    destruct (cs !! i0) as [[nv0| | | |]|] eqn:Hi0; try done.
    apply (inj Some) in Hstep as <-.
    rewrite (run_loop_ok _ _ _ _ (loop_case_registration _ _)). simpl.
    destruct (decide (i0 = i)) as [->|Hne].
    + left. rewrite Hi in Hi0. injection Hi0 as <-.
      rewrite list_lookup_insert_eq by (by eapply lookup_lt_Some).
      repeat split; eauto.
    + right. by rewrite list_lookup_insert_ne.
  - destruct (w_loop w); try done. destruct (decide _); [|done].
    apply (inj Some) in Hstep as <-. by right.
  - destruct (w_loop w); try done.
    destruct (cs !! i0) as [[nv0| | | |]|] eqn:Hi0; try done.
    apply (inj Some) in Hstep as <-. right. simpl.
    rewrite list_lookup_insert_ne; [done|]. intros ->. congruence.
  - destruct (w_loop w); try done.
    destruct (cs !! i0) as [[nv0| | | |]|] eqn:Hi0; try done.
    destruct (decide _); [|done].
    apply (inj Some) in Hstep as <-. right. simpl.
    rewrite list_lookup_insert_ne; [done|]. intros ->. congruence.
Qed.

Lemma run_Register_send acts s s' i nv :
  forallb client_action acts = true ->
  sys_callers s !! i = Some (Register_send nv) ->
  run acts s = Some s' ->
  sys_callers s' !! i = Some (Register_send nv).
Proof.
  revert s; induction acts as [|a acts IH]; simpl; intros s Hcl Hi Hrun.
  - by apply (inj Some) in Hrun as <-.
  - apply andb_true_iff in Hcl as [Ha Hcl].
    destruct (step a s) as [s1|] eqn:Hstep; [|done].
    destruct (step_Register_send _ _ _ _ _ Hi Hstep) as [(-> & _)|Hi1];
      [done|by eauto].
Qed.

Lemma Register_after_done s n x acts s' :
  w_loop (sys_w s) = LDone ->
  run (ACall_Register n x :: acts) s = Some s' ->
  sys_callers s' !! length (sys_callers s) = Some (Register n x) /\
  vars (sys_g s') = vars (sys_g s).
Proof.
  intros Hloop Hrun.
  change (run acts (mkSys (sys_st s) (sys_callers s ++ [Register n x]))
          = Some s') in Hrun.
  destruct (run_done acts (mkSys _ _) _ Hloop Hrun) as (_ & Hg & _ & Hcs).
  split; [|by rewrite Hg]. apply Hcs. simpl.
  rewrite lookup_app_r by done. by rewrite Nat.sub_diag.
Qed.

(** C10, as the code has it.  A call of [Register] has no result and
    cannot fail; it puts the caller at a send on an unbuffered channel.
    The caller stays there until the loop, waiting in its [select],
    receives the registration, which is also when the registry gets the
    value; with the loop in [select] that step can be taken.  No step of
    the clients or the clock lets the call return.  Once the loop has
    returned, the call never returns and the registry never changes. *)
Theorem Register_waits_for_the_loop s n x :
  exists s0,
    step (ACall_Register n x) s = Some s0 /\
    sys_st s0 = sys_st s /\
    sys_callers s0 !! length (sys_callers s) = Some (Register n x) /\
    (forall acts s1 a s2,
       run acts s0 = Some s1 ->
       sys_callers s1 !! length (sys_callers s) = Some (Register n x) ->
       step a s1 = Some s2 ->
       (a = ARecvRegistration (length (sys_callers s)) /\
        (exists deadline, w_loop (sys_w s1) = LSelect deadline) /\
        sys_callers s2 !! length (sys_callers s) = Some Register_ret /\
        vars (sys_g s2) = <[n := x]> (vars (sys_g s1)))
       \/ sys_callers s2 !! length (sys_callers s) = Some (Register n x)) /\
    (forall deadline,
       w_loop (sys_w s) = LSelect deadline ->
       exists s2,
         step (ARecvRegistration (length (sys_callers s))) s0 = Some s2 /\
         sys_callers s2 !! length (sys_callers s) = Some Register_ret) /\
    ~ Register_returns_at_once s n x /\
    (w_loop (sys_w s) = LDone ->
     forall acts s1,
       run acts s0 = Some s1 ->
       sys_callers s1 !! length (sys_callers s) = Some (Register n x) /\
       vars (sys_g s1) = vars (sys_g s)).
Proof.
  assert (Hi : (sys_callers s ++ [Register n x]) !! length (sys_callers s)
               = Some (Register n x)).
  { rewrite lookup_app_r by done. by rewrite Nat.sub_diag. }
  exists (mkSys (sys_st s) (sys_callers s ++ [Register n x])).
  do 3 (split; [done|]). split; [|split; [|split]].
  - intros acts s1 a s2 _ Hi1 Hstep.
    apply (step_Register_send a s1 s2 _ (mkNamedVar n x) Hi1 Hstep).
  - intros deadline Hloop. unfold step, sys_w in *. simpl.
    rewrite Hloop, Hi. eexists. split; [reflexivity|]. simpl.
    apply list_lookup_insert_eq. by eapply lookup_lt_Some.
  - intros (acts & s' & Hcl & Hrun & Hret). simpl in Hrun.
    rewrite (run_Register_send acts (mkSys _ _) _ _ _ Hcl Hi Hrun) in Hret.
    done.
  - intros Hloop acts s1 Hrun.
    by apply (Register_after_done s n x acts s1 Hloop).
Qed.

Lemma Register_waits_for_the_loop_witness :
  let s := Sample.after Sample.shut_down in
  w_loop (sys_w s) = LDone /\
  exists s0,
    step (ACall_Register "load" (expVar 6)) s = Some s0 /\
    forall acts s1,
      run acts s0 = Some s1 ->
      sys_callers s1 !! 3%nat = Some (Register "load" (expVar 6)) /\
      vars (sys_g s1) = vars (sys_g s).
Proof.
  assert (Hloop : w_loop (sys_w (Sample.after Sample.shut_down)) = LDone)
    by (vm_compute; reflexivity).
  split; [exact Hloop|].
  destruct (Register_waits_for_the_loop (Sample.after Sample.shut_down)
              "load" (expVar 6))
    as (s0 & Hcall & _ & _ & _ & _ & _ & Hdone).
  exists s0. split; [exact Hcall|]. exact (Hdone Hloop).
Defined.

(** C10, as the specification has it, fails: here [Shutdown] has returned,
    a client calls [Register], and whatever happens next the call has not
    returned; it is still at its send. *)
Lemma Register_after_Shutdown_never_returns :
  let s := Sample.after Sample.shut_down in
  reachable s /\
  sys_callers s !! 2%nat = Some Shutdown_ret /\
  ~ Register_returns_at_once s "load" (expVar 6) /\
  forall acts s',
    run (ACall_Register "load" (expVar 6) :: acts) s = Some s' ->
    sys_callers s' !! 3%nat = Some (Register "load" (expVar 6)) /\
    sys_callers s' !! 3%nat <> Some Register_ret.
Proof.
  assert (Hloop : w_loop (sys_w (Sample.after Sample.shut_down)) = LDone)
    by (vm_compute; reflexivity).
  assert (Hlen : sys_callers (Sample.after Sample.shut_down)
                 = [Register_ret; Register_ret; Shutdown_ret])
    by (vm_compute; reflexivity).
  assert (Hnever : forall acts s',
    run (ACall_Register "load" (expVar 6) :: acts) (Sample.after Sample.shut_down)
      = Some s' ->
    sys_callers s' !! 3%nat = Some (Register "load" (expVar 6))).
  { intros acts s' Hrun.
    destruct (Register_after_done _ _ _ _ _ Hloop Hrun) as [Hi _].
    by rewrite Hlen in Hi. }
  split; [apply (reachable_sample Sample.shut_down); vm_compute; reflexivity|].
  split; [by rewrite Hlen|]. split.
  - intros (acts & s' & _ & Hrun & Hret). rewrite Hlen in Hret. simpl in Hret.
    by rewrite (Hnever _ _ Hrun) in Hret.
  - intros acts s' Hrun. rewrite (Hnever _ _ Hrun). done.
Qed.

(** * Further properties of the code *)

(** ** What a send does to the world *)

(** X7. Every write of a send comes right after a deadline was set, with
    success, on the same connection; the deadline is a reading of the clock
    taken during the send plus the timeout of the structure.  A send whose
    deadline cannot be set writes nothing. *)
Theorem postOne_write_after_deadline name value s r s' evs c b n e :
  postOne name value s = Ok r s' ->
  w_trace (st_w s') = w_trace (st_w s) ++ evs ->
  EWrite c b n e ∈ evs ->
  exists pre now,
    evs = pre ++ [ESetWriteDeadline c (now + timeout (st_g s)) None;
                  EWrite c b n e] /\
    w_now (st_w s) <= now <= w_now (st_w s') /\
    connection (st_g s') = Some c /\
    writes pre = [].
Proof.
  destruct s as [[ep iv tmo lp c0 m] w]. revert s'. unfold_send.
  destruct c0; simpl; split_answers.
  all: intros s' [= <- <-]; simpl; rewrite <- ?app_assoc; simpl.
  all: intros Htr%app_inv_head; subst evs.
  all: rewrite ?elem_of_cons, elem_of_nil.
  all: intros Hin; destruct_or?; try done; simplify_eq.
  all: first
    [ exists []; eexists; split; [reflexivity|]; simpl; split; [lia|done]
    | eexists [_]; eexists; split; [reflexivity|]; simpl; split; [lia|done] ].
Qed.

Lemma postOne_write_after_deadline_witness :
  exists r s' pre now,
    postOne "load" "0.5" (Sample.st Sample.env_broken (Some 7%nat)) = Ok r s' /\
    w_trace (st_w s')
    = pre ++ [ESetWriteDeadline 7%nat (now + 1000000000) None;
              EWrite 7%nat (Sprintf_line "load" "0.5" 1700000003) 0
                (Some (OpError "broken pipe"))] /\
    1700000000000000000 <= now <= w_now (st_w s') /\
    connection (st_g s') = Some 7%nat /\
    writes pre = [].
Proof.
  assert (H1 : postOne "load" "0.5" (Sample.st Sample.env_broken (Some 7%nat))
               = Ok (Some (OpError "broken pipe"))
                    (mkSt (Sample.graphite (Some 7%nat))
                       (mkWorld Sample.env_broken 1700000004000000000 4
                          [ESetWriteDeadline 7%nat 1700000002000000000 None;
                           EWrite 7%nat (Sprintf_line "load" "0.5" 1700000003) 0
                             (Some (OpError "broken pipe"))]
                          LNone))) by reflexivity.
  destruct (postOne_write_after_deadline "load" "0.5" _ _ _ _ 7%nat
              (Sprintf_line "load" "0.5" 1700000003) 0
              (Some (OpError "broken pipe")) H1 eq_refl)
    as (pre & now & Hevs & Hnow & Hc & Hpre).
  { right. left. }
  eexists _, _, pre, now.
  split; [exact H1|]. split; [exact Hevs|]. split; [exact Hnow|].
  split; [exact Hc|exact Hpre].
Defined.

(** X8. A send stops at its first operation that fails, and its result is
    read off the last operation it made.  If that operation failed, the
    send returns its error as it is, not wrapped.  If it did not fail, it
    was the write, and the send returns nil exactly when the write took the
    whole line. *)
Theorem postOne_result_of_last_operation name value s r s' evs :
  postOne name value s = Ok r s' ->
  w_trace (st_w s') = w_trace (st_w s) ++ evs ->
  exists pre last,
    evs = pre ++ [last] /\
    Forall (fun ev => op_error ev = None) pre /\
    match op_error last with
    | Some e => r = Some e
    | None =>
        exists c b n,
          last = EWrite c b n None /\
          (n = len b -> r = None) /\
          (n <> len b -> r = Some (Errorf_short_write name value n (len b)))
    end.
Proof.
  destruct s as [[ep iv tmo lp c0 m] w]. revert s'. unfold_send.
  destruct c0; simpl; split_answers.
  all: intros s' [= <- <-]; simpl; rewrite <- ?app_assoc; simpl.
  all: intros Htr%app_inv_head; subst evs.
  all: first
    [ exists []; eexists; split; [reflexivity|]
    | eexists [_]; eexists; split; [reflexivity|]
    | eexists [_; _]; eexists; split; [reflexivity|] ].
  all: split; [by repeat constructor|]; simpl.
  all: try done.
  all: eexists _, _, _; split; [reflexivity|]; by split.
Qed.

Lemma postOne_result_of_last_operation_witness :
  exists pre last,
    [EDial "stats:2003" (inl 0%nat);
     ESetWriteDeadline 0%nat 1700000003000000000 None;
     EWrite 0%nat (Sprintf_line "load" "0.5" 1700000004) 20 None]
    = pre ++ [last] /\
    Forall (fun ev => op_error ev = None) pre /\
    match op_error last with
    | Some e => @None error = Some e
    | None =>
        exists c b n,
          last = EWrite c b n None /\
          (n = len b -> @None error = None) /\
          (n <> len b ->
           None = Some (Errorf_short_write "load" "0.5" n (len b)))
    end.
Proof.
  apply (postOne_result_of_last_operation "load" "0.5"
           (Sample.st Sample.env_ok None) None
           (mkSt (set_connection (Some 0%nat) (Sample.graphite None))
              (mkWorld Sample.env_ok 1700000005000000000 5
                 [EDial "stats:2003" (inl 0%nat);
                  ESetWriteDeadline 0%nat 1700000003000000000 None;
                  EWrite 0%nat (Sprintf_line "load" "0.5" 1700000004) 20 None]
                 LNone))).
  - reflexivity.
  - reflexivity.
Defined.

(** ** What a pass does to the world *)

(** X10. What a pass writes are lines of registered names: each line
    written is the line of a name that is in the registry when the pass
    starts, with a text that the pass got for it, and there are no more
    lines than there are names. *)
Theorem postAll_writes_registered s s' evs :
  postAll s = Ok tt s' ->
  w_trace (st_w s') = w_trace (st_w s) ++ evs ->
  (length (writes evs) <= size (vars (st_g s)))%nat /\
  forall c b,
    (c, b) ∈ writes evs ->
    exists n x value now r0,
      vars (st_g s) !! n = Some x /\
      EPostOne n value r0 ∈ evs /\
      b = Sprintf_line n value (time_Unix now).
Proof.
  intros Hpost Htr.
  destruct (postAll_run s)
    as (evs' & Htr' & _ & _ & _ & _ & _ & _ & _ & _ & _ & Hres & _).
  rewrite Hpost in Hres, Htr'. simpl in Htr'.
  rewrite Htr in Htr'. apply app_inv_head in Htr' as <-.
  by destruct Hres as (_ & _ & Hlen & Hw & _).
Qed.

Lemma postAll_writes_registered_witness :
  match postAll (Sample.st Sample.env_short (Some 7%nat)) with
  | Ok _ s' =>
      (length (writes (w_trace (st_w s'))) <= 2)%nat /\
      forall c b,
        (c, b) ∈ writes (w_trace (st_w s')) ->
        exists n x value now r0,
          vars (Sample.graphite (Some 7%nat)) !! n = Some x /\
          EPostOne n value r0 ∈ w_trace (st_w s') /\
          b = Sprintf_line n value (time_Unix now)
  | Panic _ => False
  end.
Proof.
  destruct (postAll (Sample.st Sample.env_short (Some 7%nat)))
    as [[] s'|s'] eqn:H1.
  - apply (postAll_writes_registered _ _ _ H1). reflexivity.
  - vm_compute in H1. discriminate H1.
Defined.

(** ** What a step does to the world *)

Lemma step_trace a s s' :
  step a s = Some s' ->
  exists evs,
    w_trace (sys_w s') = w_trace (sys_w s) ++ evs /\
    match a with
    | ATimer =>
        w_trace (st_w (state_of (postAll (sys_st s))))
        = w_trace (sys_w s) ++ evs /\
        sys_g s' = st_g (state_of (postAll (sys_st s)))
    | ARecvShutdown _ =>
        match connection (sys_g s) with
        | Some c => evs = [EClose c] /\ sys_g s' = set_connection None (sys_g s)
        | None => evs = [] /\ sys_g s' = sys_g s
        end
    | ARecvRegistration _ =>
        evs = [] /\ exists m, sys_g s' = set_vars m (sys_g s)
    | _ => evs = [] /\ sys_g s' = sys_g s
    end.
Proof.
  destruct s as [[g w] cs]. unfold sys_g, sys_w. intros Hstep.
  destruct a; unfold step in Hstep; cbn [sys_st sys_callers st_w st_g] in *.
  1-3: apply (inj Some) in Hstep as <-; exists []; simpl;
       by rewrite app_nil_r.
  - destruct (w_loop w); try done. apply (inj Some) in Hstep as <-.
    rewrite (run_loop_ok _ _ _ _ (select_arm_eq _)). exists []. simpl.
    by rewrite app_nil_r.
  - destruct (w_loop w); try done; destruct (cs !! i) as [[nv| | | |]|]; try done.
    apply (inj Some) in Hstep as <-.
    rewrite (run_loop_ok _ _ _ _ (loop_case_registration _ _)).
    exists []. simpl. rewrite app_nil_r. eauto.
  - destruct (w_loop w); try done. destruct (decide _); [|done].
    apply (inj Some) in Hstep as <-. rewrite run_loop_timer.
    destruct (postAll_run (mkSt g w)) as (evs & Htr & _).
    exists evs. simpl. eauto.
  - destruct (w_loop w); try done; destruct (cs !! i) as [[nv| | | |]|]; try done.
    apply (inj Some) in Hstep as <-.
    unfold run_loop. rewrite loop_case_shutdown. simpl.
    destruct (connection g); simpl.
    + by exists [EClose c].
    + exists []. by rewrite app_nil_r.
  - destruct (w_loop w); try done; destruct (cs !! i) as [[nv| | | |]|]; try done.
    destruct (decide _); [|done]. apply (inj Some) in Hstep as <-.
    exists []. simpl. by rewrite app_nil_r.
Qed.

Lemma step_config a s s' :
  step a s = Some s' ->
  endpoint (sys_g s') = endpoint (sys_g s) /\
  interval (sys_g s') = interval (sys_g s) /\
  timeout (sys_g s') = timeout (sys_g s).
Proof.
  intros Hstep. destruct (step_trace _ _ _ Hstep) as (evs & Htr & Ha).
  destruct a; try (destruct Ha as [_ ->]; done).
  - destruct Ha as [_ [m ->]]. done.
  - destruct Ha as [_ ->].
    by destruct (postAll_run (sys_st s))
      as (evs' & _ & _ & _ & _ & _ & _ & _ & Hiv & Hep & Htmo & _).
  - destruct (connection (sys_g s)); destruct Ha as [_ ->]; done.
Qed.

Lemma step_dials a s s' :
  inv s -> step a s = Some s' ->
  dials (w_trace (sys_w s')) = dials (w_trace (sys_w s)).
Proof.
  intros [_ Hl] Hstep. destruct (step_trace _ _ _ Hstep) as (evs & Htr & Ha).
  rewrite Htr. unfold dials. rewrite omap_app.
  assert (omap dial_of evs = []) as ->; [|by rewrite app_nil_r].
  destruct a; try (destruct Ha as [-> _]; done).
  - destruct Ha as [Htr1 _].
    destruct (postAll_run (sys_st s)) as (evs' & Htr' & _ & Hd & _).
    unfold sys_w in Htr1. rewrite Htr1 in Htr'.
    apply app_inv_head in Htr' as <-.
    apply Hd. unfold step in Hstep.
    destruct (w_loop (st_w (sys_st s))) eqn:Hloop; try done.
    unfold sys_w in Hl. rewrite Hloop in Hl.
    destruct Hl as (c & Hc & _). by exists c.
  - destruct (connection (sys_g s)); destruct Ha as [-> _]; done.
Qed.

Lemma run_inv acts s s' : inv s -> run acts s = Some s' -> inv s'.
Proof.
  revert s; induction acts as [|a acts IH]; simpl; intros s Hinv Hrun.
  - by apply (inj Some) in Hrun as <-.
  - destruct (step a s) as [s1|] eqn:Hstep; [|done].
    eapply IH; [|done]. by eapply step_inv.
Qed.

(** Where the loop stands after a step, given where it stood. *)
Lemma step_loop a s s' :
  inv s -> step a s = Some s' ->
  match a with
  | AArm | ARecvRegistration _ =>
      running (w_loop (sys_w s)) = true /\ running (w_loop (sys_w s')) = true
  | ATimer =>
      running (w_loop (sys_w s)) = true /\
      (w_loop (sys_w s') = LTop \/ w_loop (sys_w s') = LPanic)
  | ARecvShutdown i =>
      running (w_loop (sys_w s)) = true /\ w_loop (sys_w s') = LAck i
  | AAck _ =>
      running (w_loop (sys_w s)) = false /\ w_loop (sys_w s') = LDone
  | _ => w_loop (sys_w s') = w_loop (sys_w s)
  end.
Proof.
  destruct s as [[g w] cs]. intros [_ Hl] Hstep. unfold sys_w, sys_g in *.
  destruct a; unfold step in Hstep; cbn [sys_st sys_callers st_w st_g] in *.
  1-3: by apply (inj Some) in Hstep as <-.
  - destruct (w_loop w); try done. apply (inj Some) in Hstep as <-.
    by rewrite (run_loop_ok _ _ _ _ (select_arm_eq _)).
  - destruct (w_loop w); try done; destruct (cs !! i) as [[nv| | | |]|]; try done.
    apply (inj Some) in Hstep as <-.
    by rewrite (run_loop_ok _ _ _ _ (loop_case_registration _ _)).
  - destruct (w_loop w); try done. destruct (decide _); [|done].
    apply (inj Some) in Hstep as <-. rewrite run_loop_timer. simpl.
    split; [done|]. destruct (postAll (mkSt g w)); eauto.
  - destruct (w_loop w); try done; destruct (cs !! i) as [[nv| | | |]|]; try done.
    apply (inj Some) in Hstep as <-.
    destruct Hl as (c & Hc & _). change (connection g = Some c) in Hc.
    assert (Hcase := loop_case_shutdown i (mkSt g w)).
    cbn [st_g] in Hcase. rewrite Hc in Hcase.
    by rewrite (run_loop_ok _ _ _ _ Hcase).
  - destruct (w_loop w); try done; destruct (cs !! i) as [[nv| | | |]|]; try done.
    destruct (decide _); [|done]. by apply (inj Some) in Hstep as <-.
Qed.



(** X2. The running program never dials again.  Along every schedule from
    a system that [NewGraphite] and the steps lead to, the dials on the
    trace stay the ones that were there: no pass and no send reconnects,
    however the writes on the connection fail. *)
Theorem running_program_never_dials acts s s' :
  reachable s ->
  run acts s = Some s' ->
  dials (w_trace (sys_w s')) = dials (w_trace (sys_w s)).
Proof.
  intros Hinv%reachable_inv. revert s Hinv.
  induction acts as [|a acts IH]; simpl; intros s Hinv Hrun.
  - by apply (inj Some) in Hrun as <-.
  - destruct (step a s) as [s1|] eqn:Hstep; [|done].
    rewrite (IH s1); [by eapply step_dials|by eapply step_inv|done].
Qed.

Lemma running_program_never_dials_witness :
  dials (w_trace (sys_w (Sample.after (Sample.timer_due ++ [ATimer]))))
  = [inl 1%nat] /\
  dials (w_trace (sys_w (Sample.after (Sample.timer_due ++ [ATimer]))))
  = dials (w_trace (sys_w Sample.sys0)).
Proof.
  split; [vm_compute; reflexivity|].
  apply (running_program_never_dials (Sample.timer_due ++ [ATimer]) Sample.sys0).
  - apply (reachable_sample []). reflexivity.
  - vm_compute. reflexivity.
Defined.

(** X11. The configuration is fixed.  Along every schedule the endpoint,
    the interval and the timeout of the structure stay as [NewGraphite] set
    them. *)
Theorem configuration_is_fixed acts s s' :
  run acts s = Some s' ->
  endpoint (sys_g s') = endpoint (sys_g s) /\
  interval (sys_g s') = interval (sys_g s) /\
  timeout (sys_g s') = timeout (sys_g s).
Proof.
  revert s; induction acts as [|a acts IH]; simpl; intros s Hrun.
  - by apply (inj Some) in Hrun as <-.
  - destruct (step a s) as [s1|] eqn:Hstep; [|done].
    destruct (step_config _ _ _ Hstep) as (Hep & Hiv & Htmo).
    destruct (IH _ Hrun) as (Hep' & Hiv' & Htmo').
    repeat split; congruence.
Qed.

Lemma configuration_is_fixed_witness :
  let s' := Sample.after (Sample.timer_due ++ [ATimer]) in
  endpoint (sys_g s') = "stats:2003" /\
  interval (sys_g s') = 10000000000 /\
  timeout (sys_g s') = 1000000000.
Proof.
  apply (configuration_is_fixed (Sample.timer_due ++ [ATimer]) Sample.sys0
           (Sample.after (Sample.timer_due ++ [ATimer]))).
  vm_compute. reflexivity.
Defined.

(** X12. Only the timer case writes.  Along a schedule in which the timer
    case is never taken, nothing is written, whatever is registered and
    whether or not the program is shut down. *)
Theorem only_the_timer_writes acts s s' :
  run acts s = Some s' ->
  ATimer ∉ acts ->
  writes (w_trace (sys_w s')) = writes (w_trace (sys_w s)).
Proof.
  revert s; induction acts as [|a acts IH]; simpl; intros s Hrun Hno.
  - by apply (inj Some) in Hrun as <-.
  - destruct (step a s) as [s1|] eqn:Hstep; [|done].
    apply not_elem_of_cons in Hno as [Ha Hno].
    rewrite (IH _ Hrun Hno).
    destruct (step_trace _ _ _ Hstep) as (evs & Htr & Hevs).
    rewrite Htr. unfold writes. rewrite omap_app.
    assert (omap write_of evs = []) as ->; [|by rewrite app_nil_r].
    destruct a; try done; try (destruct Hevs as [-> _]; done).
    destruct (connection (sys_g s)); destruct Hevs as [-> _]; done.
Qed.

Lemma only_the_timer_writes_witness :
  writes (w_trace (sys_w (Sample.after Sample.shut_down))) = [].
Proof.
  apply (only_the_timer_writes Sample.shut_down Sample.sys0
           (Sample.after Sample.shut_down)).
  - vm_compute. reflexivity.
  - unfold Sample.shut_down. rewrite !not_elem_of_cons.
    repeat split; try discriminate. apply not_elem_of_nil.
Defined.

(** ** The clock and the schedule *)

(** X3. The schedule never runs ahead.  In every system that
    [NewGraphite] and the steps lead to, [lastPublish] is not in the
    future; so the delay that [nextPublishDelay] computes is at most
    [interval], and a timer that is armed is due no earlier than
    [lastPublish + interval] and no later than [interval] from now. *)
Theorem delay_is_at_most_interval s :
  reachable s ->
  lastPublish (sys_g s) <= w_now (sys_w s) /\
  (forall d st1,
     nextPublishDelay (sys_st s) = Ok d st1 -> d <= interval (sys_g s)) /\
  (forall deadline,
     w_loop (sys_w s) = LSelect deadline ->
     lastPublish (sys_g s) + interval (sys_g s) <= deadline
     <= w_now (sys_w s) + interval (sys_g s)).
Proof.
  intros Hreach.
  destruct (reachable_inv_clock _ Hreach) as (Hiv & Hlp & Hdl).
  split; [done|]. split.
  - intros d st1. rewrite nextPublishDelay_eq. intros [= <- _].
    rewrite time_Sub_clamp.
    unfold sys_g, sys_w, is_Duration in *. simpl. lia.
  - intros deadline Hloop. by rewrite Hloop in Hdl.
Qed.

Lemma delay_is_at_most_interval_witness :
  let s := Sample.after Sample.timer_due in
  lastPublish (sys_g s) <= w_now (sys_w s) /\
  (forall d st1,
     nextPublishDelay (sys_st s) = Ok d st1 -> d <= interval (sys_g s)) /\
  (forall deadline,
     w_loop (sys_w s) = LSelect deadline ->
     lastPublish (sys_g s) + interval (sys_g s) <= deadline
     <= w_now (sys_w s) + interval (sys_g s)).
Proof.
  apply (delay_is_at_most_interval (Sample.after Sample.timer_due)).
  apply (reachable_sample Sample.timer_due). vm_compute. reflexivity.
Defined.

(** ** Shutdown *)

(** X4. A call of [Shutdown] on a program whose loop is alive can always
    go through: once the loop is in its [select] (it gets there from the
    top of its [for] by itself), it can receive the request, and the caller
    can then receive the acknowledgement and return, with the loop
    returned. *)
Theorem Shutdown_can_return s i :
  reachable s ->
  running (w_loop (sys_w s)) = true ->
  sys_callers s !! i = Some Shutdown_send ->
  exists s',
    run (match w_loop (sys_w s) with
         | LTop => [AArm; ARecvShutdown i; AAck i]
         | _ => [ARecvShutdown i; AAck i]
         end) s = Some s' /\
    sys_callers s' !! i = Some Shutdown_ret /\
    w_loop (sys_w s') = LDone.
Proof.
  intros Hinv%reachable_inv Hrun Hi.
  assert (Hsel : forall s0 deadline,
    inv s0 -> w_loop (sys_w s0) = LSelect deadline ->
    sys_callers s0 !! i = Some Shutdown_send ->
    exists s', run [ARecvShutdown i; AAck i] s0 = Some s' /\
               sys_callers s' !! i = Some Shutdown_ret /\
               w_loop (sys_w s') = LDone).
  { intros [[g w] cs] deadline [_ Hl] Hloop Hi0.
    unfold sys_w, sys_g in *. cbn [sys_st sys_callers st_w st_g] in *.
    rewrite Hloop in Hl. destruct Hl as (c & Hc & _).
    change (connection g = Some c) in Hc.
    assert (Hcase := loop_case_shutdown i (mkSt g w)).
    cbn [st_g] in Hcase. rewrite Hc in Hcase.
    assert (Hlt : (i < length cs)%nat) by (by eapply lookup_lt_Some).
    unfold run, step. cbn [sys_st sys_callers st_w st_g].
    rewrite Hloop, Hi0, (run_loop_ok _ _ _ _ Hcase). simpl.
    rewrite list_lookup_insert_eq by done.
    rewrite decide_True by done. eexists. split; [reflexivity|]. simpl.
    split; [|done]. apply list_lookup_insert_eq. by rewrite length_insert. }
  destruct (w_loop (sys_w s)) eqn:Hloop; try done.
  - assert (Harm : exists s1, step AArm s = Some s1 /\
                   sys_callers s1 = sys_callers s /\
                   exists deadline, w_loop (sys_w s1) = LSelect deadline).
    { unfold step. unfold sys_w in Hloop. rewrite Hloop.
      eexists. split; [reflexivity|].
      rewrite (run_loop_ok _ _ _ _ (select_arm_eq _)). simpl. eauto. }
    destruct Harm as (s1 & Hstep & Hcs & deadline & Hloop1).
    destruct (Hsel s1 deadline) as (s' & Hrun' & Hret & Hdone).
    + by eapply step_inv.
    + done.
    + by rewrite Hcs.
    + exists s'. split; [|done].
      change (run (AArm :: [ARecvShutdown i; AAck i]) s = Some s').
      cbn [run]. rewrite Hstep. exact Hrun'.
  - by eapply Hsel.
Qed.

Lemma Shutdown_can_return_witness :
  let s := Sample.after (Sample.timer_due ++ [ACall_Shutdown]) in
  exists s',
    run [ARecvShutdown 3%nat; AAck 3%nat] s = Some s' /\
    sys_callers s' !! 3%nat = Some Shutdown_ret /\
    w_loop (sys_w s') = LDone.
Proof.
  assert (Hloop : w_loop (sys_w (Sample.after (Sample.timer_due ++ [ACall_Shutdown])))
                  = LSelect 1700000012000000000) by (vm_compute; reflexivity).
  destruct (Shutdown_can_return
              (Sample.after (Sample.timer_due ++ [ACall_Shutdown])) 3%nat)
    as (s' & Hrun & Hret & Hdone).
  - apply (reachable_sample (Sample.timer_due ++ [ACall_Shutdown])).
    vm_compute. reflexivity.
  - rewrite Hloop. reflexivity.
  - vm_compute. reflexivity.
  - rewrite Hloop in Hrun. exists s'. by repeat split.
Defined.

Lemma step_one_return a s s' :
  inv s -> one_return s -> step a s = Some s' -> one_return s'.
Proof.
  destruct s as [[g w] cs]. unfold one_return, inv, sys_w.
  cbn [sys_st sys_callers st_w st_g]. intros [Hcs _] Hone Hstep.
  assert (Hnew : forall c, c <> Shutdown_ret -> forall i j,
            (cs ++ [c]) !! i = Some Shutdown_ret ->
            (cs ++ [c]) !! j = Some Shutdown_ret -> i = j).
  { intros c Hc i j [Hi|[_ Hi]]%lookup_app_Some [Hj|[_ Hj]]%lookup_app_Some.
    - by eapply Hone.
    - apply list_lookup_singleton_Some in Hj as [_ ->]. done.
    - apply list_lookup_singleton_Some in Hi as [_ ->]. done.
    - apply list_lookup_singleton_Some in Hi as [_ ->]. done. }
  assert (Hins : forall k c,
            (forall i, cs !! i <> Some Shutdown_ret) -> forall i j,
            <[k := c]> cs !! i = Some Shutdown_ret ->
            <[k := c]> cs !! j = Some Shutdown_ret -> i = j).
  { intros k c Hno i j Hi Hj.
    destruct (decide (k = i)) as [<-|Hki];
      [|rewrite list_lookup_insert_ne in Hi by done; by destruct (Hno i)].
    destruct (decide (k = j)) as [<-|Hkj]; [done|].
    rewrite list_lookup_insert_ne in Hj by done. by destruct (Hno j). }
  assert (Hnone : w_loop w <> LDone -> forall i, cs !! i <> Some Shutdown_ret).
  { intros Hl i Hi. by apply Hcs in Hi. }
  destruct a; unfold step in Hstep; cbn [sys_st sys_callers st_w st_g] in *.
  - apply (inj Some) in Hstep as <-. by apply Hnew.
  - apply (inj Some) in Hstep as <-. by apply Hnew.
  - by apply (inj Some) in Hstep as <-.
  - destruct (w_loop w); try done. by apply (inj Some) in Hstep as <-.
  - destruct (w_loop w) eqn:Hloop; try done.
    destruct (cs !! i) as [[nv| | | |]|]; try done.
    apply (inj Some) in Hstep as <-. simpl. apply Hins. by apply Hnone.
  - destruct (w_loop w); try done. destruct (decide _); [|done].
    by apply (inj Some) in Hstep as <-.
  - destruct (w_loop w) eqn:Hloop; try done.
    destruct (cs !! i) as [[nv| | | |]|]; try done.
    apply (inj Some) in Hstep as <-. simpl. apply Hins. by apply Hnone.
  - destruct (w_loop w) eqn:Hloop; try done.
    destruct (cs !! i) as [[nv| | | |]|]; try done.
    destruct (decide _); [|done].
    apply (inj Some) in Hstep as <-. simpl. apply Hins. by apply Hnone.
Qed.

Lemma reachable_one_return s : reachable s -> one_return s.
Proof.
  induction 1 as [ep iv tmo w g st Hnew|s a s' Hreach IH Hstep].
  - by intros i j [=].
  - eapply step_one_return; [|done..]. by apply reachable_inv.
Qed.

(** X5. At most one call of [Shutdown] ever returns.  Two callers that
    have returned from [Shutdown] are the same caller; and once one has
    returned, a further call of [Shutdown] stays at its send for ever,
    whatever happens next. *)
Theorem Shutdown_returns_once s i :
  reachable s ->
  sys_callers s !! i = Some Shutdown_ret ->
  (forall j, sys_callers s !! j = Some Shutdown_ret -> j = i) /\
  forall acts s',
    run (ACall_Shutdown :: acts) s = Some s' ->
    sys_callers s' !! i = Some Shutdown_ret /\
    sys_callers s' !! length (sys_callers s) = Some Shutdown_send.
Proof.
  intros Hreach Hi. split.
  - intros j Hj. by eapply (reachable_one_return s Hreach).
  - intros acts s' Hrun.
    destruct (reachable_inv _ Hreach) as [Hcs _].
    assert (Hloop : w_loop (sys_w s) = LDone) by (apply (Hcs _ _ Hi)).
    change (run acts (mkSys (sys_st s) (sys_callers s ++ [Shutdown]))
            = Some s') in Hrun.
    destruct (run_done acts (mkSys _ _) _ Hloop Hrun) as (_ & _ & _ & Hkeep).
    split; apply Hkeep; simpl.
    + by apply lookup_app_l_Some.
    + rewrite lookup_app_r by done. by rewrite Nat.sub_diag.
Qed.

Lemma Shutdown_returns_once_witness :
  let s := Sample.after Sample.shut_down in
  (forall j, sys_callers s !! j = Some Shutdown_ret -> j = 2%nat) /\
  forall acts s',
    run (ACall_Shutdown :: acts) s = Some s' ->
    sys_callers s' !! 2%nat = Some Shutdown_ret /\
    sys_callers s' !! length (sys_callers s) = Some Shutdown_send.
Proof.
  apply (Shutdown_returns_once (Sample.after Sample.shut_down) 2%nat).
  - apply (reachable_sample Sample.shut_down). vm_compute. reflexivity.
  - vm_compute. reflexivity.
Defined.

Lemma step_closes a s s' :
  inv s -> step a s = Some s' ->
  (closes (w_trace (sys_w s')) = closes (w_trace (sys_w s)) /\
   (running (w_loop (sys_w s')) = true -> running (w_loop (sys_w s)) = true) /\
   (running (w_loop (sys_w s)) = true ->
    connection (sys_g s') = connection (sys_g s)))
  \/ (running (w_loop (sys_w s)) = true /\
      running (w_loop (sys_w s')) = false /\
      exists c, connection (sys_g s) = Some c /\
                closes (w_trace (sys_w s'))
                = closes (w_trace (sys_w s)) ++ [c]).
Proof.
  intros Hinv Hstep.
  assert (Hloop := step_loop _ _ _ Hinv Hstep).
  destruct (step_trace _ _ _ Hstep) as (evs & Htr & Ha).
  rewrite Htr. unfold closes. rewrite omap_app.
  destruct a.
  1-4: left; destruct Ha as [-> ->]; rewrite app_nil_r.
  1-3: by rewrite Hloop.
  - destruct Hloop as [-> ->]. done.
  - left. destruct Ha as [-> [m ->]]. rewrite app_nil_r.
    destruct Hloop as [-> ->]. done.
  - left. destruct Ha as [Htr1 ->].
    destruct (postAll_run (sys_st s)) as (evs' & Htr' & Hcl & Hd & _).
    unfold sys_w in Htr1. rewrite Htr1 in Htr'.
    apply app_inv_head in Htr' as <-.
    unfold closes in Hcl. rewrite Hcl, app_nil_r.
    destruct Hloop as [Hr _]. rewrite Hr. split; [done|]. split; [done|].
    intros _. apply Hd. destruct Hinv as [_ Hl]. unfold step in Hstep.
    destruct (w_loop (st_w (sys_st s))) eqn:Hl'; try done.
    unfold sys_w in Hl. rewrite Hl' in Hl. destruct Hl as (c & Hgc & _).
    by exists c.
  - right. destruct Hloop as [Hr Hack]. rewrite Hr, Hack.
    split; [done|]. split; [done|].
    destruct Hinv as [_ Hl].
    destruct (w_loop (sys_w s)); try done.
    + destruct Hl as (c & Hc & _). rewrite Hc in Ha. destruct Ha as [-> _].
      by exists c.
    + destruct Hl as (c & Hc & _). rewrite Hc in Ha. destruct Ha as [-> _].
      by exists c.
  - left. destruct Ha as [-> ->]. rewrite app_nil_r.
    destruct Hloop as [-> ->]. done.
Qed.

Lemma run_closes acts s s' :
  inv s -> run acts s = Some s' ->
  (running (w_loop (sys_w s)) = false ->
   closes (w_trace (sys_w s')) = closes (w_trace (sys_w s))) /\
  (running (w_loop (sys_w s)) = true ->
   closes (w_trace (sys_w s')) = closes (w_trace (sys_w s))
   \/ exists c, connection (sys_g s) = Some c /\
                closes (w_trace (sys_w s'))
                = closes (w_trace (sys_w s)) ++ [c]).
Proof.
  revert s; induction acts as [|a acts IH]; simpl; intros s Hinv Hrun.
  - apply (inj Some) in Hrun as <-. split; [done|]. by left.
  - destruct (step a s) as [s1|] eqn:Hstep; [|done].
    destruct (IH s1 (step_inv _ _ _ Hinv Hstep) Hrun) as [IHoff IHon].
    destruct (step_closes _ _ _ Hinv Hstep)
      as [(Hcl & Hr & Hc)|(Hr & Hr1 & c & Hc & Hcl)].
    + destruct (running (w_loop (sys_w s1))) eqn:Hr1.
      * split; [intros Hoff; rewrite Hr in Hoff; done|].
        intros Hon. destruct IHon as [->|(c & Hc1 & ->)]; [done| |].
        -- by left.
        -- right. exists c. rewrite <- Hc by done. by rewrite Hcl.
      * rewrite IHoff by done. split; [done|]. intros _. by left.
    + split; [congruence|]. intros _. right. exists c.
      by rewrite IHoff, Hcl.
Qed.

(** X6. The connection is closed at most once.  Along every schedule, the
    closes on the trace are the ones that were there, and at most one
    more: the close of the connection that the structure holds.  Once the
    loop is not alive any more, nothing is closed again. *)
Theorem connection_closed_at_most_once acts s s' :
  reachable s ->
  run acts s = Some s' ->
  (closes (w_trace (sys_w s')) = closes (w_trace (sys_w s))
   \/ exists c, connection (sys_g s) = Some c /\
                closes (w_trace (sys_w s'))
                = closes (w_trace (sys_w s)) ++ [c]) /\
  (running (w_loop (sys_w s)) = false ->
   closes (w_trace (sys_w s')) = closes (w_trace (sys_w s))).
Proof.
  intros Hinv%reachable_inv Hrun.
  destruct (run_closes _ _ _ Hinv Hrun) as [Hoff Hon].
  split; [|done].
  destruct (running (w_loop (sys_w s))) eqn:Hr; [by apply Hon|].
  left. by apply Hoff.
Qed.

Lemma connection_closed_at_most_once_witness :
  let s' := Sample.after (Sample.shut_down ++ [ACall_Shutdown; AElapse 5%N]) in
  closes (w_trace (sys_w s')) = [1%nat] /\
  (closes (w_trace (sys_w s')) = closes (w_trace (sys_w Sample.sys0))
   \/ exists c, connection (sys_g Sample.sys0) = Some c /\
                closes (w_trace (sys_w s'))
                = closes (w_trace (sys_w Sample.sys0)) ++ [c]).
Proof.
  split; [vm_compute; reflexivity|].
  apply (connection_closed_at_most_once
           (Sample.shut_down ++ [ACall_Shutdown; AElapse 5%N]) Sample.sys0).
  - apply (reachable_sample []). reflexivity.
  - vm_compute. reflexivity.
Defined.


